(** * launcho: the game event system

    A shallow embedding of [GameEventSystem] (src/launcho/GameEventSystem.cpp):
    the listener registry, the two event queues with their index toggle, the
    time-budgeted drain and the keyboard edge detection, followed by the
    properties of the specification that concern them. *)

From Stdlib Require Import QArith.
From stdpp Require Import gmap strings list vector sorting.

Local Close Scope Q_scope.
Local Open Scope N_scope.

(** ** Data model *)

(** Event type identifiers and subscription identifiers are unsigned integers
    (the code logs both with [%08x]). *)
Abbreviation EventID := N.
Abbreviation EventCallbackID := N.

(** What the dispatcher observes of an [Event] object: the two virtual
    accessors it calls. *)
Record Event := mkEvent {
  getID : EventID;
  getNameC : string
}.

(** [StrongEventPtr] is a shared pointer; [None] is the null pointer. *)
Abbreviation StrongEventPtr := (option Event).

(** A listener is modelled by what it does to the dispatcher while it runs:
    the events it hands to [queueEvent], in order, given the event it is
    invoked with.  Listeners that restructure the registry from inside a
    dispatch are outside this model. *)
Abbreviation EventCallback := (Event → list Event).

Abbreviation EventCallbackMap := (gmap N (Event → list Event)).
Abbreviation EventQueue := (list (option Event)).

(** The members of [GameEventSystem].  [windowOpen] stands for the window the
    system holds a pointer to; [queues0] and [queues1] are [queues[0]] and
    [queues[1]].  The container types are declared in GameEventSystem.h: the
    registry is read as a map from event type to a map from subscription to
    callback, a queue as a sequence open at both ends. *)
Record GameEventSystem := mkGameEventSystem {
  windowOpen : bool;
  listeners : gmap EventID EventCallbackMap;
  queues0 : EventQueue;
  queues1 : EventQueue;
  activeQueue : N
}.

(** The state the constructor leaves. *)
Definition GameEventSystem_new : GameEventSystem :=
  mkGameEventSystem true ∅ [] [] 0.

Definition set_windowOpen (b : bool) (s : GameEventSystem) : GameEventSystem :=
  mkGameEventSystem b (listeners s) (queues0 s) (queues1 s) (activeQueue s).

Definition set_listeners (l : gmap EventID EventCallbackMap)
    (s : GameEventSystem) : GameEventSystem :=
  mkGameEventSystem (windowOpen s) l (queues0 s) (queues1 s) (activeQueue s).

Definition set_activeQueue (a : N) (s : GameEventSystem) : GameEventSystem :=
  mkGameEventSystem (windowOpen s) (listeners s) (queues0 s) (queues1 s) a.

(** [queues[i]], read and written.  The index only ever holds 0 or 1. *)
Definition queueAt (i : N) (s : GameEventSystem) : EventQueue :=
  if decide (i = 0) then queues0 s else queues1 s.

Definition setQueueAt (i : N) (q : EventQueue)
    (s : GameEventSystem) : GameEventSystem :=
  if decide (i = 0)
  then mkGameEventSystem (windowOpen s) (listeners s) q (queues1 s) (activeQueue s)
  else mkGameEventSystem (windowOpen s) (listeners s) (queues0 s) q (activeQueue s).

(** ** Subscription identifiers *)

Section CallbackID.
(** The width of [EventCallbackID]; its typedef is in a header. *)
Variable bits : N.

(** [static EventCallbackID currentID = 0; return ++currentID;]
    The function-local static is passed explicitly; the result is the
    returned identifier and the new value of the static. *)
Definition generateNextCallbackID (currentID : N) : N * N :=
  let currentID' := (currentID + 1) mod 2 ^ bits in
  (currentID', currentID').

(** The value of the static after [n] calls, starting from [c]. *)
Definition currentID_after (n : N) (c : N) : N :=
  N.iter n (λ c, snd (generateNextCallbackID c)) c.

(** What the [n]-th call of the process returns, [n >= 1]. *)
Definition nth_generated (n : N) : N :=
  fst (generateNextCallbackID (currentID_after (N.pred n) 0)).
End CallbackID.

(** ** Listener registry *)

(** [addListener]: the insertion sits in the [else] of the outer lookup. *)
Definition addListener (evtID : EventID) (callbackID : EventCallbackID)
    (fn : EventCallback) (s : GameEventSystem) : bool * GameEventSystem :=
  match listeners s !! evtID with
  | Some bucket =>
      match bucket !! callbackID with
      | Some _ => (false, s)
      | None => (true, s)
      end
  | None =>
      (true, set_listeners (<[evtID := {[callbackID := fn]}]> (listeners s)) s)
  end.

(** [removeListener]: every path reaches the final [return false]. *)
Definition removeListener (evtID : EventID) (callbackID : EventCallbackID)
    (s : GameEventSystem) : bool * GameEventSystem :=
  match listeners s !! evtID with
  | Some bucket =>
      match bucket !! callbackID with
      | Some _ =>
          (false,
           set_listeners (<[evtID := delete callbackID bucket]> (listeners s)) s)
      | None => (false, s)
      end
  | None => (false, s)
  end.

(** The callback stored under an event type and subscription, if any. *)
Definition registered (evtID : EventID) (callbackID : EventCallbackID)
    (s : GameEventSystem) : option EventCallback :=
  bucket ← listeners s !! evtID; bucket !! callbackID.

(** ** Queueing and immediate delivery *)

(** [queueEvent]: [assert(evt != nullptr)], then [push_back] on
    [queues[activeQueue]].  [None] is the failed assertion. *)
Definition queueEvent (evt : StrongEventPtr) (s : GameEventSystem)
    : option GameEventSystem :=
  match evt with
  | None => None
  | Some _ =>
      Some (setQueueAt (activeQueue s) (queueAt (activeQueue s) s ++ [evt]) s)
  end.

(** Running one listener: the [queueEvent] calls it makes, one after another. *)
Fixpoint runListener (queued : list Event) (s : GameEventSystem)
    : option GameEventSystem :=
  match queued with
  | [] => Some s
  | e :: rest => s' ← queueEvent (Some e) s; runListener rest s'
  end.

(** The entries of a bucket in iteration order: ascending subscription
    identifier, the order of an ordered map. *)
Definition entry_le (x y : EventCallbackID * EventCallback) : Prop :=
  x.1 ≤ y.1.

#[global] Instance entry_le_dec x y : Decision (entry_le x y).
Proof. unfold entry_le. apply _. Defined.

Definition bucketEntries (bucket : EventCallbackMap)
    : list (EventCallbackID * EventCallback) :=
  merge_sort entry_le (map_to_list bucket).

(** [for (auto listener : itr->second) listener.second(evt);] *)
Fixpoint invokeAll (entries : list (EventCallbackID * EventCallback))
    (e : Event) (s : GameEventSystem) : option GameEventSystem :=
  match entries with
  | [] => Some s
  | (_, fn) :: rest => s' ← runListener (fn e) s; invokeAll rest e s'
  end.

(** [triggerEvent]: [assert(evt != nullptr)], look the bucket of the event's
    type up and call every listener in it.  Besides the state it returns the
    entries it invoked. *)
Definition triggerEvent (evt : StrongEventPtr) (s : GameEventSystem)
    : option (GameEventSystem * list (EventCallbackID * EventCallback)) :=
  match evt with
  | None => None
  | Some e =>
      match listeners s !! getID e with
      | Some bucket =>
          s' ← invokeAll (bucketEntries bucket) e s;
          Some (s', bucketEntries bucket)
      | None => Some (s, [])
      end
  end.

(** ** Aborting queued events *)

(** The predicate of both abort functions, [evt->getID() == id]; it
    dereferences the pointer. *)
Definition hasID (id : EventID) (evt : StrongEventPtr) : option bool :=
  e ← evt; Some (getID e =? id).

(** [std::find_if]: the position of the first element satisfying the
    predicate, the length of the range when there is none. *)
Fixpoint find_if (pred : StrongEventPtr → option bool) (q : EventQueue)
    : option nat :=
  match q with
  | [] => Some 0%nat
  | p :: rest =>
      b ← pred p;
      if b : bool then Some 0%nat else S <$> find_if pred rest
  end.

(** [abortEvent]: erase the first event of the type from the active queue. *)
Definition abortEvent (id : EventID) (s : GameEventSystem)
    : option (bool * GameEventSystem) :=
  let q := queueAt (activeQueue s) s in
  itr ← find_if (hasID id) q;
  if decide (itr = length q) then Some (false, s)
  else Some (true, setQueueAt (activeQueue s) (delete itr q) s).

(** The loop of [std::remove_if] over positions [first .. last):
    [if (!pred( *first)) { *result = std::move( *first); ++result; }].
    Moving a shared pointer out leaves it null.  [n] is [last - first]. *)
Fixpoint remove_if_loop (pred : StrongEventPtr → option bool) (n : nat)
    (first result : nat) (q : EventQueue) : option (EventQueue * nat) :=
  match n with
  | O => Some (q, result)
  | S n' =>
      p ← q !! first;
      b ← pred p;
      if b : bool then remove_if_loop pred n' (S first) result q
      else remove_if_loop pred n' (S first) (S result)
             (<[first := None]> (<[result := p]> q))
  end.

(** [std::remove_if], as the standard libraries write it: find the first
    match, then shift every later non-match down.  The result is the range
    after the call and the returned position; the length never changes. *)
Definition remove_if (pred : StrongEventPtr → option bool) (q : EventQueue)
    : option (EventQueue * nat) :=
  first ← find_if pred q;
  if decide (first = length q) then Some (q, first)
  else remove_if_loop pred (length q - S first) (S first) first q.

(** Arithmetic of [uint32_t]. *)
Definition uint32 (z : Z) : N := Z.to_N (z mod 2 ^ 32).

(** [abortAllEvents]: [count = size; std::remove_if(...); count -= size].
    The position [remove_if] returns is discarded. *)
Definition abortAllEvents (id : EventID) (s : GameEventSystem)
    : option (N * GameEventSystem) :=
  let q := queueAt (activeQueue s) s in
  let count := uint32 (Z.of_nat (length q)) in
  '(q', _) ← remove_if (hasID id) q;
  let count := uint32 (Z.of_N count - Z.of_nat (length q')) in
  Some (count, setQueueAt (activeQueue s) q' s).

(** ** The drain *)

(** [std::copy(q.begin(), q.end(), std::front_inserter(dst))]: every element
    of [q], first to last, is pushed on the front of [dst]. *)
Definition copy_front_inserter (q dst : EventQueue) : EventQueue :=
  foldl (λ dst p, p :: dst) dst q.

Section Drain.
(** The budget, and the reading [timer.elapsedMilliF()] gives at the budget
    check that follows the [count]-th delivery of the pass.  Times are
    rationals: the code only compares them. *)
Variable maxMs : Q.
Variable elapsedMilliF : nat → Q.

(** The [while (!q.empty())] loop; [qi] is the index [q] refers to.  The
    result lists the delivered events, each with the listeners invoked.
    The loop pops one event per round, so [fuel] rounds suffice for a queue
    of that length. *)
Fixpoint processQueue_loop (fuel : nat) (qi : N) (count : nat)
    (s : GameEventSystem)
    : option (GameEventSystem *
              list (Event * list (EventCallbackID * EventCallback))) :=
  match queueAt qi s with
  | [] => Some (s, [])
  | evt :: rest =>
      match fuel with
      | O => None
      | S fuel' =>
          let s := setQueueAt qi rest s in
          e ← evt;
          '(s, invoked) ← triggerEvent evt s;
          let count := S count in
          let s :=
            if Qlt_le_dec maxMs (elapsedMilliF count)
            then
              let s :=
                setQueueAt (activeQueue s)
                  (copy_front_inserter (queueAt qi s)
                     (queueAt (activeQueue s) s)) s in
              setQueueAt qi [] s
            else s in
          '(s, trace) ← processQueue_loop fuel' qi count s;
          Some (s, (e, invoked) :: trace)
      end
  end.

(** [processQueue]: take the active queue, flip the index, drain. *)
Definition processQueue (s : GameEventSystem)
    : option (GameEventSystem *
              list (Event * list (EventCallbackID * EventCallback))) :=
  let qi := activeQueue s in
  let s := set_activeQueue (N.land (activeQueue s + 1) 1) s in
  processQueue_loop (length (queueAt qi s)) qi 0 s.
End Drain.

(** ** Raw input *)

(** The part of [sf::Event] the system reads. *)
Module sf.
Inductive EventType := Closed | KeyPressed | KeyReleased | OtherType.
Inductive Key := Up | Down | Left | Right | Space | OtherKey.
Record Event := mkEvent { type : EventType; code : Key }.

#[global] Instance EventType_eq_dec : EqDecision EventType.
Proof. solve_decision. Defined.
End sf.

Inductive InputAction := MoveUp | MoveDown | MoveLeft | MoveRight | Fire.
Inductive InputActionState := Start | Stop.

(** The slots of the static [keyStates] array. *)
Definition UP : fin 5 := 0%fin.
Definition DOWN : fin 5 := 1%fin.
Definition LEFT : fin 5 := 2%fin.
Definition RIGHT : fin 5 := 3%fin.
Definition FIRE : fin 5 := 4%fin.

(** [static bool keyStates[5] = { false }] *)
Definition keyStates_init : vec bool 5 := vreplicate 5 false.

Section Input.
(** The constructor of [InputEvent], declared in events/InputEvents.h.  The
    state is [None] where the code passes the action alone. *)
Variable InputEvent : InputAction → option InputActionState → Event.

(** [dispatchKeyboardEvent].  The static array is passed along with the
    system; [None] is the failed assertion on the event type. *)
Definition dispatchKeyboardEvent (evt : sf.Event)
    (st : vec bool 5 * GameEventSystem)
    : option (vec bool 5 * GameEventSystem) :=
  let '(keyStates, s) := st in
  let pressed := bool_decide (sf.type evt = sf.KeyPressed) in
  let released := bool_decide (sf.type evt = sf.KeyReleased) in
  if negb (pressed || released) then None
  else
    match sf.code evt with
    | sf.Up =>
        if pressed && negb (keyStates !!! UP) then
          s ← queueEvent (Some (InputEvent MoveUp (Some Start))) s;
          Some (vinsert UP true keyStates, s)
        else if released && (keyStates !!! UP) then
          s ← queueEvent (Some (InputEvent MoveUp (Some Stop))) s;
          Some (vinsert UP false keyStates, s)
        else Some (keyStates, s)
    | sf.Down =>
        if pressed && negb (keyStates !!! DOWN) then
          s ← queueEvent (Some (InputEvent MoveDown (Some Start))) s;
          Some (vinsert DOWN true keyStates, s)
        else if released && (keyStates !!! DOWN) then
          s ← queueEvent (Some (InputEvent MoveDown (Some Stop))) s;
          Some (vinsert DOWN false keyStates, s)
        else Some (keyStates, s)
    | sf.Left =>
        if pressed && negb (keyStates !!! LEFT) then
          s ← queueEvent (Some (InputEvent MoveLeft (Some Start))) s;
          Some (vinsert LEFT true keyStates, s)
        else if released && (keyStates !!! LEFT) then
          s ← queueEvent (Some (InputEvent MoveLeft (Some Stop))) s;
          Some (vinsert LEFT false keyStates, s)
        else Some (keyStates, s)
    | sf.Right =>
        if pressed && negb (keyStates !!! RIGHT) then
          s ← queueEvent (Some (InputEvent MoveRight (Some Start))) s;
          Some (vinsert RIGHT true keyStates, s)
        else if released && (keyStates !!! RIGHT) then
          s ← queueEvent (Some (InputEvent MoveRight (Some Stop))) s;
          Some (vinsert RIGHT false keyStates, s)
        else Some (keyStates, s)
    | sf.Space =>
        if pressed && negb (keyStates !!! FIRE) then
          s ← queueEvent (Some (InputEvent Fire None)) s;
          Some (vinsert FIRE true keyStates, s)
        else if released && (keyStates !!! FIRE) then
          Some (vinsert FIRE false keyStates, s)
        else Some (keyStates, s)
    | sf.OtherKey => Some (keyStates, s)
    end.

(** [processWindowEvents]; [polled] is what [window->pollEvent] hands out,
    in order, until it returns false. *)
Fixpoint processWindowEvents (polled : list sf.Event)
    (st : vec bool 5 * GameEventSystem)
    : option (vec bool 5 * GameEventSystem) :=
  match polled with
  | [] => Some st
  | evt :: rest =>
      st ←
        (if bool_decide (sf.type evt = sf.Closed)
         then Some (st.1, set_windowOpen false st.2)
         else if bool_decide (sf.type evt = sf.KeyPressed)
                 || bool_decide (sf.type evt = sf.KeyReleased)
         then dispatchKeyboardEvent evt st
         else Some st);
      processWindowEvents rest st
  end.

(** [update]: window events first, then the drain against the budget.
    [timer.start()] fixes the origin of the readings. *)
Definition update (maxMs : Q) (elapsedMilliF : nat → Q)
    (polled : list sf.Event) (st : vec bool 5 * GameEventSystem)
    : option (vec bool 5 * GameEventSystem *
              list (Event * list (EventCallbackID * EventCallback))) :=
  '(keyStates, s) ← processWindowEvents polled st;
  '(s, trace) ← processQueue maxMs elapsedMilliF s;
  Some (keyStates, s, trace).
End Input.

(** ** Notions used in the statements *)

(** The listeners [triggerEvent] finds for an event. *)
Definition listenersFor (s : GameEventSystem) (e : Event)
    : list (EventCallbackID * EventCallback) :=
  match listeners s !! getID e with
  | Some bucket => bucketEntries bucket
  | None => []
  end.

(** The events a list of listeners queues when invoked with [e]. *)
Definition queuedBy (entries : list (EventCallbackID * EventCallback))
    (e : Event) : list Event :=
  entries ≫= (λ entry, entry.2 e).

(** [push_back] of a batch of events on the queue that receives new events. *)
Definition pushed (l : list Event) (s : GameEventSystem) : GameEventSystem :=
  setQueueAt (activeQueue s) (queueAt (activeQueue s) s ++ (Some <$> l)) s.

(** The events the listeners queued during a pass, in the order queued. *)
Definition queuedIn
    (trace : list (Event * list (EventCallbackID * EventCallback)))
    : list Event :=
  trace ≫= (λ d, queuedBy d.2 d.1).

(** How many events the loop delivers from a queue of [n] events when
    [count] have been delivered: every round delivers, and the budget check
    that follows decides whether there is another round. *)
Fixpoint deliveries (maxMs : Q) (elapsedMilliF : nat → Q) (count n : nat)
    : nat :=
  match n with
  | O => O
  | S n' =>
      S (if Qlt_le_dec maxMs (elapsedMilliF (S count)) then O
         else deliveries maxMs elapsedMilliF (S count) n')
  end.

(** The logical control a key drives: its slot in [keyStates] and the action
    of the events it produces. *)
Definition control (k : sf.Key) : option (fin 5 * InputAction) :=
  match k with
  | sf.Up => Some (UP, MoveUp)
  | sf.Down => Some (DOWN, MoveDown)
  | sf.Left => Some (LEFT, MoveLeft)
  | sf.Right => Some (RIGHT, MoveRight)
  | sf.Space => Some (FIRE, Fire)
  | sf.OtherKey => None
  end.

(** [Fire] is the pulse control: its event is built from the action alone and
    it has no stop event. *)
Definition isPulse (a : InputAction) : bool :=
  match a with Fire => true | _ => false end.

(** ** Sample listeners, events and states *)

(** A listener that queues nothing, and one that queues a follow-up event. *)
Definition sample_silent : EventCallback := λ _, [].
Definition sample_follow : EventCallback := λ _, [mkEvent 7 "follow"].

(** A registry holding subscription 1 under event type 1. *)
Definition sample_registry : GameEventSystem :=
  (addListener 1 1 sample_silent GameEventSystem_new).2.

(** An active queue holding events of type 1, 2 and 1 again. *)
Definition sample_mixed_queue : GameEventSystem :=
  mkGameEventSystem true ∅
    [Some (mkEvent 1 "A"); Some (mkEvent 2 "B"); Some (mkEvent 1 "A2")] [] 0.

(** Input events named after what they carry, for the examples. *)
Definition sample_InputEvent (a : InputAction) (st : option InputActionState)
    : Event :=
  mkEvent 100
    (match a with
     | MoveUp => "up" | MoveDown => "down" | MoveLeft => "left"
     | MoveRight => "right" | Fire => "fire"
     end +:+
     match st with
     | Some Start => "-start" | Some Stop => "-stop" | None => EmptyString
     end).

(** Three events of type 9 in the active queue, without and with a listener
    for that type. *)
Definition sample_e1 : Event := mkEvent 9 "e1".
Definition sample_e2 : Event := mkEvent 9 "e2".
Definition sample_e3 : Event := mkEvent 9 "e3".

Definition sample_three_queued : GameEventSystem :=
  mkGameEventSystem true ∅
    [Some sample_e1; Some sample_e2; Some sample_e3] [] 0.

Definition sample_three_listened : GameEventSystem :=
  (addListener 9 1 sample_silent sample_three_queued).2.

(** The same queue with a listener that queues a follow-up event. *)
Definition sample_three_following : GameEventSystem :=
  (addListener 9 1 sample_follow sample_three_queued).2.

(** A timer that reads 1 ms at every budget check. *)
Definition sample_clock : nat → Q := λ _, 1%Q.

(** ** Sequences of registry calls *)

(** A call on the registry, and a sequence of such calls run in order. *)
Inductive RegistryCall :=
  | CallAddListener (evtID : EventID) (callbackID : EventCallbackID)
      (fn : EventCallback)
  | CallRemoveListener (evtID : EventID) (callbackID : EventCallbackID).

Definition runRegistryCall (s : GameEventSystem) (c : RegistryCall)
    : GameEventSystem :=
  match c with
  | CallAddListener evtID callbackID fn => (addListener evtID callbackID fn s).2
  | CallRemoveListener evtID callbackID => (removeListener evtID callbackID s).2
  end.

Definition runRegistryCalls (calls : list RegistryCall) (s : GameEventSystem)
    : GameEventSystem :=
  foldl runRegistryCall s calls.

(** Every bucket holds at most one listener. *)
Definition singleListener (s : GameEventSystem) : Prop :=
  ∀ evtID bucket, listeners s !! evtID = Some bucket → (size bucket ≤ 1)%nat.

(** ** Survivors of an abort *)

(** The events of another type than [id], in order. *)
Definition keptEvents (id : EventID) (evs : list Event) : list Event :=
  filter (λ e, getID e ≠ id) evs.

(** What [std::remove_if] leaves in a slot it has passed: an event of type
    [id] stays, any other event has been moved out. *)
Definition passedSlot (id : EventID) (e : Event) : option Event :=
  if getID e =? id then Some e else None.

(** ** Key transitions *)

(** The events a key transition of a control queues, given whether the key
    went down and whether the control was held: none when the flag already
    agrees with the transition, else the start event on a press and, for a
    control that has one, the stop event on a release. *)
Definition edgeEvents
    (InputEvent : InputAction → option InputActionState → Event)
    (action : InputAction) (pressed held : bool) : list Event :=
  if Bool.eqb held pressed then []
  else if pressed
       then [InputEvent action (if isPulse action then None else Some Start)]
       else if isPulse action then []
            else [InputEvent action (Some Stop)].

(** No close request among the polled events. *)
Definition noneClosed (polled : list sf.Event) : bool :=
  forallb (λ evt, negb (bool_decide (sf.type evt = sf.Closed))) polled.

(** ** A listener with recognisable follow-ups *)

(** A listener that answers every event with one follow-up event of type 7,
    named after the event it was invoked with. *)
Definition sample_echo : EventCallback :=
  λ e, [mkEvent 7 ("f-" +:+ getNameC e)].

(** The three events of type 9 in the active queue, with that listener
    registered for type 9. *)
Definition sample_three_echoed : GameEventSystem :=
  (addListener 9 1 sample_echo sample_three_queued).2.


(** * Properties *)

(** ** Queue access *)

Lemma flip_index a : a < 2 → N.land (a + 1) 1 = 1 - a.
Proof. intros H. assert (a = 0 ∨ a = 1) as [-> | ->] by lia; reflexivity. Qed.

Lemma queueAt_setQueueAt i q s : queueAt i (setQueueAt i q s) = q.
Proof. unfold queueAt, setQueueAt. by destruct (decide (i = 0)). Qed.

Lemma queueAt_setQueueAt_other i j q s :
  (i = 0 ↔ j ≠ 0) → queueAt j (setQueueAt i q s) = queueAt j s.
Proof.
  unfold queueAt, setQueueAt. intros H.
  destruct (decide (i = 0)), (decide (j = 0)); simpl; tauto.
Qed.

Lemma setQueueAt_queueAt i s : setQueueAt i (queueAt i s) s = s.
Proof. unfold queueAt, setQueueAt. by destruct s, (decide (i = 0)). Qed.

Lemma setQueueAt_setQueueAt i q q' s :
  setQueueAt i q (setQueueAt i q' s) = setQueueAt i q s.
Proof. unfold setQueueAt. by destruct (decide (i = 0)). Qed.

Lemma listeners_setQueueAt i q s : listeners (setQueueAt i q s) = listeners s.
Proof. unfold setQueueAt. by destruct (decide (i = 0)). Qed.

Lemma activeQueue_setQueueAt i q s :
  activeQueue (setQueueAt i q s) = activeQueue s.
Proof. unfold setQueueAt. by destruct (decide (i = 0)). Qed.

Lemma windowOpen_setQueueAt i q s :
  windowOpen (setQueueAt i q s) = windowOpen s.
Proof. unfold setQueueAt. by destruct (decide (i = 0)). Qed.

(** ** Delivery to the listeners of a type *)

Lemma pushed_nil s : pushed [] s = s.
Proof. unfold pushed. simpl. rewrite app_nil_r. apply setQueueAt_queueAt. Qed.

Lemma pushed_app l1 l2 s : pushed l2 (pushed l1 s) = pushed (l1 ++ l2) s.
Proof.
  unfold pushed. rewrite activeQueue_setQueueAt, queueAt_setQueueAt.
  by rewrite setQueueAt_setQueueAt, fmap_app, app_assoc.
Qed.

Lemma queueEvent_pushed e s : queueEvent (Some e) s = Some (pushed [e] s).
Proof. reflexivity. Qed.

Lemma runListener_pushed l s : runListener l s = Some (pushed l s).
Proof.
  revert s. induction l as [|e l IH]; intros s.
  - by rewrite pushed_nil.
  - cbn [runListener]. rewrite queueEvent_pushed. cbn [mbind option_bind].
    by rewrite IH, pushed_app.
Qed.

Lemma invokeAll_pushed entries e s :
  invokeAll entries e s = Some (pushed (queuedBy entries e) s).
Proof.
  revert s. induction entries as [|[id fn] entries IH]; intros s.
  - by rewrite pushed_nil.
  - cbn [invokeAll]. rewrite runListener_pushed. cbn [mbind option_bind].
    by rewrite IH, pushed_app.
Qed.

Lemma triggerEvent_pushed e s :
  triggerEvent (Some e) s
  = Some (pushed (queuedBy (listenersFor s e) e) s, listenersFor s e).
Proof.
  unfold triggerEvent, listenersFor.
  destruct (listeners s !! getID e) as [bucket|].
  - by rewrite invokeAll_pushed.
  - by rewrite pushed_nil.
Qed.

Lemma elem_of_bucketEntries (bucket : EventCallbackMap) id fn :
  (id, fn) ∈ bucketEntries bucket ↔ bucket !! id = Some fn.
Proof.
  unfold bucketEntries. rewrite merge_sort_Permutation.
  apply elem_of_map_to_list.
Qed.

Lemma elem_of_listenersFor s e id fn :
  (id, fn) ∈ listenersFor s e ↔ registered (getID e) id s = Some fn.
Proof.
  unfold listenersFor, registered.
  destruct (listeners s !! getID e) as [bucket|]; simpl.
  - apply elem_of_bucketEntries.
  - split; [by intros ?%elem_of_nil | done].
Qed.

Lemma listenersFor_pushed l s e : listenersFor (pushed l s) e = listenersFor s e.
Proof. unfold listenersFor, pushed. by rewrite listeners_setQueueAt. Qed.

(** ** The listener registry *)

Lemma addListener_fresh_type evtID callbackID fn s :
  listeners s !! evtID = None →
  addListener evtID callbackID fn s
  = (true, set_listeners (<[evtID := {[callbackID := fn]}]> (listeners s)) s).
Proof. intros H. unfold addListener. by rewrite H. Qed.

Lemma addListener_known_type evtID callbackID fn s bucket :
  listeners s !! evtID = Some bucket →
  bucket !! callbackID = None →
  addListener evtID callbackID fn s = (true, s).
Proof. intros H1 H2. unfold addListener. by rewrite H1, H2. Qed.

Lemma addListener_registered evtID callbackID fn fn' s :
  registered evtID callbackID s = Some fn →
  addListener evtID callbackID fn' s = (false, s).
Proof.
  unfold registered, addListener. intros H.
  destruct (listeners s !! evtID) as [bucket|]; simpl in H; [|done].
  by rewrite H.
Qed.

Lemma removeListener_false evtID callbackID s :
  (removeListener evtID callbackID s).1 = false.
Proof.
  unfold removeListener.
  destruct (listeners s !! evtID) as [bucket|]; [|done].
  by destruct (bucket !! callbackID).
Qed.

Lemma removeListener_absent evtID callbackID s :
  registered evtID callbackID s = None →
  removeListener evtID callbackID s = (false, s).
Proof.
  unfold registered, removeListener. intros H.
  destruct (listeners s !! evtID) as [bucket|]; simpl in H; [|done].
  by rewrite H.
Qed.

Lemma removeListener_removes evtID callbackID s :
  registered evtID callbackID (removeListener evtID callbackID s).2 = None.
Proof.
  unfold registered, removeListener.
  destruct (listeners s !! evtID) as [bucket|] eqn:Hb; simpl.
  - destruct (bucket !! callbackID) eqn:Hc; simpl.
    + rewrite lookup_insert_eq. simpl. apply lookup_delete_eq.
    + by rewrite Hb.
  - by rewrite Hb.
Qed.

(** C1: on a registry that already holds subscription 1 under event type 1,
    [addListener 1 2 fn] answers true, yet leaves the registry as it was:
    subscription 2 is not stored, and delivering an event of type 1 invokes
    subscription 1 alone. *)
Theorem addListener_known_type_not_stored :
  registered 1 2 sample_registry = None ∧
  addListener 1 2 sample_follow sample_registry = (true, sample_registry) ∧
  registered 1 2 (addListener 1 2 sample_follow sample_registry).2 = None ∧
  triggerEvent (Some (mkEvent 1 "A"))
    (addListener 1 2 sample_follow sample_registry).2
  = Some (sample_registry, [(1, sample_silent)]).
Proof. repeat split; reflexivity. Qed.

(** C5: removing the registered subscription 1 of event type 1 erases the
    entry, and the call still answers false. *)
Theorem removeListener_success_answers_false :
  registered 1 1 sample_registry = Some sample_silent ∧
  (removeListener 1 1 sample_registry).1 = false ∧
  registered 1 1 (removeListener 1 1 sample_registry).2 = None.
Proof. repeat split; reflexivity. Qed.

(** C7: a second [addListener] for a pair that is registered answers false
    and returns the state it was given; an event of that type is still
    delivered to the callback stored first, and to no other callback under
    that subscription. *)
Theorem addListener_duplicate_rejected evtID callbackID fn fn2 s :
  registered evtID callbackID s = Some fn →
  addListener evtID callbackID fn2 s = (false, s) ∧
  ∀ e, getID e = evtID →
    ∃ s' invoked,
      triggerEvent (Some e) (addListener evtID callbackID fn2 s).2
      = Some (s', invoked) ∧
      (callbackID, fn) ∈ invoked ∧
      ∀ fn', (callbackID, fn') ∈ invoked → fn' = fn.
Proof.
  intros Hreg. rewrite (addListener_registered _ _ _ fn2 _ Hreg).
  split; [done|]. intros e <-. cbn [snd].
  rewrite triggerEvent_pushed. do 2 eexists. split; [done|]. split.
  - by apply elem_of_listenersFor.
  - intros fn' Hin%elem_of_listenersFor. congruence.
Qed.

Lemma addListener_duplicate_rejected_witness :
  registered 1 1 sample_registry = Some sample_silent ∧
  addListener 1 1 sample_follow sample_registry = (false, sample_registry) ∧
  ∀ e, getID e = 1 →
    ∃ s' invoked,
      triggerEvent (Some e) (addListener 1 1 sample_follow sample_registry).2
      = Some (s', invoked) ∧
      (1, sample_silent) ∈ invoked ∧
      ∀ fn', (1, fn') ∈ invoked → fn' = sample_silent.
Proof.
  split; [reflexivity|].
  apply (addListener_duplicate_rejected 1 1 sample_silent sample_follow
           sample_registry).
  reflexivity.
Defined.

(** C10: for a non-null event [triggerEvent] returns, having invoked exactly
    the callbacks stored under the event's type; the registry, the queue
    index and the window flag are as before, the queue that is not receiving
    is as before, and the receiving queue has grown by exactly the events
    the invoked listeners queued.  When they queue nothing the state is
    unchanged. *)
Theorem triggerEvent_frame e s :
  ∃ s' invoked,
    triggerEvent (Some e) s = Some (s', invoked) ∧
    (∀ id fn, (id, fn) ∈ invoked ↔ registered (getID e) id s = Some fn) ∧
    listeners s' = listeners s ∧
    activeQueue s' = activeQueue s ∧
    windowOpen s' = windowOpen s ∧
    queueAt (activeQueue s) s'
    = queueAt (activeQueue s) s ++ (Some <$> queuedBy invoked e) ∧
    (∀ i, (activeQueue s = 0 ↔ i ≠ 0) → queueAt i s' = queueAt i s) ∧
    (queuedBy invoked e = [] → s' = s).
Proof.
  rewrite triggerEvent_pushed. do 2 eexists. split; [done|].
  unfold pushed. repeat split.
  - by intros ?%elem_of_listenersFor.
  - by intros ?%elem_of_listenersFor.
  - apply listeners_setQueueAt.
  - apply activeQueue_setQueueAt.
  - apply windowOpen_setQueueAt.
  - apply queueAt_setQueueAt.
  - intros i Hi. by apply queueAt_setQueueAt_other.
  - intros ->. simpl. rewrite app_nil_r. apply setQueueAt_queueAt.
Qed.

(** ** Subscription identifiers *)

Lemma currentID_after_zero bits n :
  currentID_after bits n 0 = n mod 2 ^ bits.
Proof.
  assert (2 ^ bits ≠ 0) as HM by (apply N.pow_nonzero; lia).
  unfold currentID_after. induction n as [|n IH] using N.peano_ind.
  - simpl. by rewrite N.Div0.mod_0_l.
  - rewrite N.iter_succ, IH. simpl.
    rewrite N.Div0.add_mod_idemp_l. f_equal. lia.
Qed.

Lemma nth_generated_mod bits n :
  1 ≤ n → nth_generated bits n = n mod 2 ^ bits.
Proof.
  intros Hn. unfold nth_generated. rewrite currentID_after_zero. simpl.
  rewrite N.Div0.add_mod_idemp_l. f_equal. lia.
Qed.

(** C8: the counter has the width of its type.  While fewer than [2 ^ bits]
    identifiers have been issued, the [n]-th call returns [n], which no
    earlier call returned. *)
Theorem generateNextCallbackID_fresh bits n :
  1 ≤ n → n < 2 ^ bits →
  nth_generated bits n = n ∧
  ∀ m, 1 ≤ m → m < n → nth_generated bits m ≠ nth_generated bits n.
Proof.
  intros H1 H2. split.
  - rewrite nth_generated_mod by done. by apply N.mod_small.
  - intros m Hm1 Hm2. rewrite !nth_generated_mod by done.
    rewrite !N.mod_small by lia. lia.
Qed.

Lemma generateNextCallbackID_fresh_witness :
  1 ≤ 3 ∧ 3 < 2 ^ 32 ∧
  nth_generated 32 3 = 3 ∧
  ∀ m, 1 ≤ m → m < 3 → nth_generated 32 m ≠ nth_generated 32 3.
Proof.
  split; [lia|]. split; [reflexivity|].
  apply (generateNextCallbackID_fresh 32 3); [lia | reflexivity].
Defined.

(** C8, at 32 bits: the call number [2 ^ 32] returns 0, and the one after it
    returns 1, the identifier the first call issued. *)
Lemma generateNextCallbackID_wraps :
  nth_generated 32 (2 ^ 32) = 0 ∧
  nth_generated 32 (2 ^ 32) ≠ 2 ^ 32 ∧
  nth_generated 32 (2 ^ 32 + 1) = nth_generated 32 1.
Proof.
  rewrite !nth_generated_mod by lia. repeat split; try reflexivity.
  vm_compute. discriminate.
Qed.

(** ** Aborting *)

Lemma remove_if_loop_length pred n first result q q' r :
  remove_if_loop pred n first result q = Some (q', r) →
  length q' = length q.
Proof.
  revert first result q.
  induction n as [|n IH]; intros first result q; simpl.
  - by intros [= <- _].
  - destruct (q !! first) as [p|]; [simpl|done].
    destruct (pred p) as [[]|]; [simpl..|done].
    + apply IH.
    + intros H%IH. by rewrite H, !length_insert.
Qed.

Lemma remove_if_length pred q q' r :
  remove_if pred q = Some (q', r) → length q' = length q.
Proof.
  unfold remove_if. destruct (find_if pred q) as [first|]; [simpl|done].
  destruct (decide (first = length q)).
  - by intros [= <- _].
  - apply remove_if_loop_length.
Qed.

Lemma uint32_size_difference n :
  uint32 (Z.of_N (uint32 (Z.of_nat n)) - Z.of_nat n) = 0.
Proof.
  unfold uint32. rewrite Z2N.id by (apply Z.mod_pos_bound; lia).
  rewrite Zminus_mod_idemp_l, Z.sub_diag. reflexivity.
Qed.

(** Whenever [abortAllEvents] returns, it returns 0 and the active queue has
    the length it had. *)
Lemma abortAllEvents_count id s count s' :
  abortAllEvents id s = Some (count, s') →
  count = 0 ∧
  length (queueAt (activeQueue s) s') = length (queueAt (activeQueue s) s).
Proof.
  unfold abortAllEvents.
  destruct (remove_if _ _) as [[q' r]|] eqn:Hr; [simpl|done].
  intros [= <- <-]. apply remove_if_length in Hr.
  rewrite Hr, uint32_size_difference, queueAt_setQueueAt. done.
Qed.

(** C3: with events of type 1, 2 and 1 in the active queue,
    [abortAllEvents 1] returns 0, not 2; the queue still has three slots, the
    second event of type 1 is still queued and the slot the event of type 2
    was moved out of holds a null pointer. *)
Theorem abortAllEvents_removes_nothing :
  abortAllEvents 1 sample_mixed_queue
  = Some (0, mkGameEventSystem true ∅
               [Some (mkEvent 2 "B"); None; Some (mkEvent 1 "A2")] [] 0).
Proof. reflexivity. Qed.

(** ** Keyboard edge detection *)

(** C9: for each of the five controls, starting with the control not held,
    a key-down marks it held and queues its start event, and a second
    key-down changes nothing, so two key-downs in a row queue one start
    event; a key-up while held clears the flag and queues the stop event,
    except for the pulse control, where it only clears the flag. *)
Theorem dispatchKeyboardEvent_edges
    (InputEvent : InputAction → option InputActionState → Event)
    (k : sf.Key) (slot : fin 5) (action : InputAction)
    (keyStates : vec bool 5) (s : GameEventSystem) :
  control k = Some (slot, action) →
  keyStates !!! slot = false →
  let down := sf.mkEvent sf.KeyPressed k in
  let up := sf.mkEvent sf.KeyReleased k in
  let start :=
    InputEvent action (if isPulse action then None else Some Start) in
  let held := vinsert slot true keyStates in
  dispatchKeyboardEvent InputEvent down (keyStates, s)
  = Some (held, pushed [start] s) ∧
  (∀ s', dispatchKeyboardEvent InputEvent down (held, s') = Some (held, s')) ∧
  (dispatchKeyboardEvent InputEvent down (keyStates, s)
     ≫= dispatchKeyboardEvent InputEvent down)
  = Some (held, pushed [start] s) ∧
  (∀ s', dispatchKeyboardEvent InputEvent up (held, s')
         = Some (vinsert slot false held,
                 if isPulse action then s'
                 else pushed [InputEvent action (Some Stop)] s')).
Proof.
  intros Hc Hfree down up start held.
  assert (held !!! slot = true) as Hheld by apply vlookup_insert.
  assert (∀ e s', queueEvent (Some e) s' = Some (pushed [e] s')) as Hq by done.
  destruct k; simpl in Hc; simplify_eq;
    subst down up start held; unfold dispatchKeyboardEvent;
    cbn -[vinsert vector_lookup_total queueEvent pushed bool_decide];
    rewrite ?Hheld, ?Hfree, ?Hq;
    rewrite ?bool_decide_eq_true_2 by done;
    rewrite ?bool_decide_eq_false_2 by done;
    cbn -[vinsert vector_lookup_total queueEvent pushed bool_decide];
    rewrite ?Hheld, ?Hfree, ?Hq; done.
Qed.

Lemma dispatchKeyboardEvent_edges_witness :
  control sf.Up = Some (UP, MoveUp) ∧
  keyStates_init !!! UP = false ∧
  let down := sf.mkEvent sf.KeyPressed sf.Up in
  let up := sf.mkEvent sf.KeyReleased sf.Up in
  let start := sample_InputEvent MoveUp (Some Start) in
  let held := vinsert UP true keyStates_init in
  dispatchKeyboardEvent sample_InputEvent down
    (keyStates_init, GameEventSystem_new)
  = Some (held, pushed [start] GameEventSystem_new) ∧
  (∀ s', dispatchKeyboardEvent sample_InputEvent down (held, s')
         = Some (held, s')) ∧
  (dispatchKeyboardEvent sample_InputEvent down
     (keyStates_init, GameEventSystem_new)
     ≫= dispatchKeyboardEvent sample_InputEvent down)
  = Some (held, pushed [start] GameEventSystem_new) ∧
  (∀ s', dispatchKeyboardEvent sample_InputEvent up (held, s')
         = Some (vinsert UP false held,
                 pushed [sample_InputEvent MoveUp (Some Stop)] s')).
Proof.
  split; [reflexivity|]. split; [reflexivity|].
  apply (dispatchKeyboardEvent_edges sample_InputEvent sf.Up UP MoveUp
           keyStates_init GameEventSystem_new); reflexivity.
Defined.

(** ** The drain *)

Lemma copy_front_inserter_reverse q dst :
  copy_front_inserter q dst = reverse q ++ dst.
Proof.
  unfold copy_front_inserter. revert dst.
  induction q as [|p q IH]; intros dst; simpl; [done|].
  by rewrite IH, reverse_cons, <- app_assoc.
Qed.

Lemma setQueueAt_comm i j q q' s :
  (i = 0 ↔ j ≠ 0) →
  setQueueAt i q (setQueueAt j q' s) = setQueueAt j q' (setQueueAt i q s).
Proof.
  unfold setQueueAt. intros H.
  destruct (decide (i = 0)), (decide (j = 0)); simpl; tauto || done.
Qed.

Lemma queuedIn_cons e invoked trace :
  queuedIn ((e, invoked) :: trace) = queuedBy invoked e ++ queuedIn trace.
Proof. reflexivity. Qed.

Lemma activeQueue_pushed l s : activeQueue (pushed l s) = activeQueue s.
Proof. apply activeQueue_setQueueAt. Qed.

Lemma listenersFor_setQueueAt i q s e :
  listenersFor (setQueueAt i q s) e = listenersFor s e.
Proof. unfold listenersFor. by rewrite listeners_setQueueAt. Qed.

Lemma queueAt_pushed l s :
  queueAt (activeQueue s) (pushed l s)
  = queueAt (activeQueue s) s ++ (Some <$> l).
Proof. apply queueAt_setQueueAt. Qed.

Lemma queueAt_pushed_other i l s :
  (activeQueue s = 0 ↔ i ≠ 0) → queueAt i (pushed l s) = queueAt i s.
Proof. apply queueAt_setQueueAt_other. Qed.

(** States built by queue writes are compared field by field. *)
Ltac state_eq :=
  unfold pushed, setQueueAt, queueAt in *;
  repeat match goal with
         | |- context [decide (?i = 0)] => destruct (decide (i = 0))
         | H : context [decide (?i = 0)] |- _ => destruct (decide (i = 0))
         end;
  simpl in *; try tauto; try congruence.

Section DrainProperties.
Variable maxMs : Q.
Variable elapsedMilliF : nat → Q.

Lemma processQueue_loop_empty fuel qi count s :
  queueAt qi s = [] →
  processQueue_loop maxMs elapsedMilliF fuel qi count s = Some (s, []).
Proof. intros H. destruct fuel; simpl; by rewrite H. Qed.

(** The loop on a queue of non-null events, with new events going to the
    other queue: it returns, having delivered the first [deliveries]
    events, each to the listeners of its type; the drained queue is empty
    and the other queue holds the undelivered events, last first, then
    what it held, then what the listeners queued. *)
Lemma processQueue_loop_spec fuel qi count s evs :
  (qi = 0 ↔ activeQueue s ≠ 0) →
  queueAt qi s = Some <$> evs →
  (length evs ≤ fuel)%nat →
  let n := deliveries maxMs elapsedMilliF count (length evs) in
  let trace := (λ e, (e, listenersFor s e)) <$> take n evs in
  processQueue_loop maxMs elapsedMilliF fuel qi count s
  = Some (setQueueAt qi []
            (setQueueAt (activeQueue s)
               (reverse (Some <$> drop n evs) ++ queueAt (activeQueue s) s
                  ++ (Some <$> queuedIn trace)) s),
          trace).
Proof.
  revert fuel count s.
  induction evs as [|e evs IH]; intros fuel count s Hidx Hq Hfuel.
  - simpl in Hq. simpl. rewrite app_nil_r, setQueueAt_queueAt.
    replace (setQueueAt qi [] s) with s
      by (by rewrite <- Hq, setQueueAt_queueAt).
    by apply processQueue_loop_empty.
  - destruct fuel as [|fuel]; [simpl in Hfuel; lia|].
    cbn [processQueue_loop]. rewrite Hq.
    cbn [fmap list_fmap mbind option_bind].
    rewrite triggerEvent_pushed. cbn [mbind option_bind].
    rewrite listenersFor_setQueueAt.
    set (Q := queuedBy (listenersFor s e) e).
    cbn [length deliveries].
    destruct (Qlt_le_dec maxMs (elapsedMilliF (S count))) as [Hover|Hok].
    + rewrite processQueue_loop_empty by apply queueAt_setQueueAt.
      cbn [mbind option_bind take drop fmap list_fmap].
      rewrite take_0. cbn [list_fmap]. rewrite queuedIn_cons.
      fold Q. rewrite copy_front_inserter_reverse.
      f_equal. f_equal.
      rewrite !activeQueue_pushed, !activeQueue_setQueueAt.
      rewrite queueAt_pushed_other
        by (rewrite activeQueue_setQueueAt; lia).
      rewrite queueAt_setQueueAt.
      assert (queueAt (activeQueue s) (pushed Q (setQueueAt qi (Some <$> evs) s))
              = queueAt (activeQueue s) s ++ (Some <$> Q)) as ->.
      { rewrite <- (activeQueue_setQueueAt qi (Some <$> evs) s) at 1.
        rewrite queueAt_pushed, activeQueue_setQueueAt.
        rewrite queueAt_setQueueAt_other by tauto. done. }
      cbn [fmap list_fmap queuedIn mbind list_bind drop]. rewrite app_nil_r.
      clear IH Hq. state_eq.
    + set (s2 := pushed Q (setQueueAt qi (Some <$> evs) s)).
      assert (activeQueue s2 = activeQueue s) as Hact
        by (unfold s2; by rewrite activeQueue_pushed, activeQueue_setQueueAt).
      assert (∀ l : list Event,
                (λ e0, (e0, listenersFor s2 e0)) <$> l
                = (λ e0, (e0, listenersFor s e0)) <$> l) as Hls.
      { intros l. apply list_fmap_ext. intros i e0 _. unfold s2.
        by rewrite listenersFor_pushed, listenersFor_setQueueAt. }
      assert (queueAt qi s2 = Some <$> evs) as Hq2.
      { unfold s2. rewrite queueAt_pushed_other
          by (rewrite activeQueue_setQueueAt; lia).
        apply queueAt_setQueueAt. }
      assert (queueAt (activeQueue s) s2
              = queueAt (activeQueue s) s ++ (Some <$> Q)) as Hp2.
      { unfold s2.
        rewrite <- (activeQueue_setQueueAt qi (Some <$> evs) s) at 1.
        rewrite queueAt_pushed, activeQueue_setQueueAt.
        by rewrite queueAt_setQueueAt_other by tauto. }
      rewrite (IH fuel (S count) s2) by (rewrite ?Hact; simpl in *; done || lia).
      cbn [mbind option_bind take drop fmap list_fmap].
      rewrite Hls, Hact, Hp2, queuedIn_cons. fold Q.
      rewrite fmap_app, <- !app_assoc.
      f_equal. f_equal. unfold s2. clear IH Hq Hq2 Hp2 Hls Hact s2.
      state_eq.
Qed.

Lemma deliveries_le count n :
  (deliveries maxMs elapsedMilliF count n ≤ n)%nat.
Proof.
  revert count. induction n as [|n IH]; intros count; simpl; [done|].
  destruct (Qlt_le_dec _ _); [lia|]. specialize (IH (S count)). lia.
Qed.

Lemma deliveries_pos count n :
  (1 ≤ n → 1 ≤ deliveries maxMs elapsedMilliF count n)%nat.
Proof. destruct n; simpl; lia. Qed.

(** Every budget check before the last delivery passed. *)
Lemma deliveries_within count n k :
  (1 ≤ k < deliveries maxMs elapsedMilliF count n)%nat →
  (elapsedMilliF (count + k)%nat <= maxMs)%Q.
Proof.
  revert count k. induction n as [|n IH]; intros count k; simpl; [lia|].
  destruct (Qlt_le_dec _ _) as [|Hok]; [lia|]. intros Hk.
  destruct (decide (k = 1%nat)) as [->|].
  - by replace (count + 1)%nat with (S count) by lia.
  - replace (count + k)%nat with (S count + (k - 1))%nat by lia.
    apply IH. lia.
Qed.

(** When events are left over, the check after the last delivery failed. *)
Lemma deliveries_stopped count n :
  (deliveries maxMs elapsedMilliF count n < n)%nat →
  (maxMs < elapsedMilliF
             (count + deliveries maxMs elapsedMilliF count n)%nat)%Q.
Proof.
  revert count. induction n as [|n IH]; intros count; simpl; [lia|].
  destruct (Qlt_le_dec _ _) as [Hover|Hok].
  - intros _. by replace (count + 1)%nat with (S count) by lia.
  - intros Hlt.
    replace (count + S (deliveries maxMs elapsedMilliF (S count) n))%nat
      with (S count + deliveries maxMs elapsedMilliF (S count) n)%nat by lia.
    apply IH. lia.
Qed.

Lemma deliveries_ample count n :
  (∀ k, (elapsedMilliF k <= maxMs)%Q) →
  deliveries maxMs elapsedMilliF count n = n.
Proof.
  intros Hample. revert count.
  induction n as [|n IH]; intros count; simpl; [done|].
  destruct (Qlt_le_dec _ _) as [Hover|Hok].
  - exfalso. eapply Qlt_not_le; [exact Hover | apply Hample].
  - by rewrite IH.
Qed.

(** [processQueue] on an active queue of non-null events. *)
Lemma processQueue_spec s evs :
  activeQueue s < 2 →
  queueAt (activeQueue s) s = Some <$> evs →
  let other := N.land (activeQueue s + 1) 1 in
  let n := deliveries maxMs elapsedMilliF 0 (length evs) in
  let trace := (λ e, (e, listenersFor s e)) <$> take n evs in
  processQueue maxMs elapsedMilliF s
  = Some (setQueueAt (activeQueue s) []
            (setQueueAt other
               (reverse (Some <$> drop n evs) ++ queueAt other s
                  ++ (Some <$> queuedIn trace))
               (set_activeQueue other s)),
          trace).
Proof.
  intros Hlt Hq other n trace. unfold processQueue. fold other.
  assert (activeQueue s = 0 ↔ other ≠ 0) as Hidx
    by (unfold other; rewrite flip_index by done; lia).
  assert (queueAt (activeQueue s) (set_activeQueue other s) = Some <$> evs)
    as Hq' by exact Hq.
  rewrite (processQueue_loop_spec _ (activeQueue s) 0
             (set_activeQueue other s) evs Hidx Hq')
    by (by rewrite Hq', length_fmap).
  reflexivity.
Qed.

(** What can be read off the state [processQueue] returns. *)
Lemma processQueue_state s evs :
  activeQueue s < 2 →
  queueAt (activeQueue s) s = Some <$> evs →
  let other := N.land (activeQueue s + 1) 1 in
  let n := deliveries maxMs elapsedMilliF 0 (length evs) in
  let trace := (λ e, (e, listenersFor s e)) <$> take n evs in
  ∃ s',
    processQueue maxMs elapsedMilliF s = Some (s', trace) ∧
    activeQueue s' = other ∧
    other ≠ activeQueue s ∧
    other < 2 ∧
    queueAt (activeQueue s) s' = [] ∧
    queueAt other s'
    = reverse (Some <$> drop n evs) ++ queueAt other s
        ++ (Some <$> queuedIn trace) ∧
    listeners s' = listeners s.
Proof.
  intros Hlt Hq other n trace. eexists. split.
  { by apply processQueue_spec. }
  assert (activeQueue s = 0 ↔ other ≠ 0) as Hidx
    by (unfold other; rewrite flip_index by done; lia).
  assert (other < 2) by (unfold other; rewrite flip_index by done; lia).
  repeat split.
  - by rewrite !activeQueue_setQueueAt.
  - lia.
  - done.
  - apply queueAt_setQueueAt.
  - rewrite queueAt_setQueueAt_other by done. apply queueAt_setQueueAt.
  - by rewrite !listeners_setQueueAt.
Qed.
End DrainProperties.

Lemma trace_events (f : Event → list (EventCallbackID * EventCallback))
    (l : list Event) :
  ((λ e, (e, f e)) <$> l).*1 = l.
Proof. rewrite <- list_fmap_compose. apply list_fmap_id. Qed.

(** ** The queue index *)

Lemma flip_index_bound a : N.land (a + 1) 1 < 2.
Proof.
  change 1 with (N.ones 1) at 2. rewrite N.land_ones.
  apply N.mod_lt. done.
Qed.

Lemma processQueue_loop_activeQueue maxMs elapsedMilliF fuel qi count s s' trace :
  processQueue_loop maxMs elapsedMilliF fuel qi count s = Some (s', trace) →
  activeQueue s' = activeQueue s.
Proof.
  revert count s s' trace.
  induction fuel as [|fuel IH]; intros count s s' trace; simpl.
  - destruct (queueAt qi s); [|done]. by intros [= <- _].
  - destruct (queueAt qi s) as [|[e|] rest]; [by intros [= <- _]| |done].
    cbn [mbind option_bind]. rewrite triggerEvent_pushed.
    cbn [mbind option_bind].
    destruct (processQueue_loop _ _ _ _ _ _) as [[s3 tr]|] eqn:Hloop;
      [|done].
    cbn [mbind option_bind]. intros [= <- _].
    apply IH in Hloop. rewrite Hloop.
    destruct (Qlt_le_dec _ _);
      by rewrite ?activeQueue_setQueueAt, activeQueue_pushed,
           activeQueue_setQueueAt.
Qed.

(** Whatever the index was, after a drain pass it is 0 or 1. *)
Lemma processQueue_activeQueue_bound maxMs elapsedMilliF s s' trace :
  processQueue maxMs elapsedMilliF s = Some (s', trace) →
  activeQueue s' < 2.
Proof.
  unfold processQueue. intros H%processQueue_loop_activeQueue.
  rewrite H. apply flip_index_bound.
Qed.

Lemma GameEventSystem_new_bound : activeQueue GameEventSystem_new < 2.
Proof. reflexivity. Qed.

(** ** Budget and carry-over *)

(** C2: with [e1; e2; e3] active and the budget exceeded after the first
    delivery, the pass leaves [e3; e2] at the front of the other queue: the
    two undelivered events are kept, in reverse order.  The next update,
    which ingests a key press behind them, delivers [e3] before [e2]. *)
Theorem processQueue_carry_over_reversed :
  ∃ s1,
    processQueue 0%Q sample_clock sample_three_queued
    = Some (s1, [(sample_e1, [])]) ∧
    queueAt 0 s1 = [] ∧
    activeQueue s1 = 1 ∧
    queueAt 1 s1 = [Some sample_e3; Some sample_e2] ∧
    ∃ keyStates s2 trace,
      update sample_InputEvent 5%Q sample_clock
        [sf.mkEvent sf.KeyPressed sf.Up] (keyStates_init, s1)
      = Some (keyStates, s2, trace) ∧
      trace.*1
      = [sample_e3; sample_e2; sample_InputEvent MoveUp (Some Start)].
Proof.
  eexists. split; [reflexivity|]. repeat split.
  do 3 eexists. split; reflexivity.
Qed.

(** C4, at the scenario: with budget 0, three events of type 9 active, a
    listener for type 9 and nothing ingested, [update] invokes the listener
    with the first event and leaves two events, not three, for the next
    cycle. *)
Lemma update_zero_budget_delivers_first :
  ∃ s',
    update sample_InputEvent 0%Q sample_clock [] (keyStates_init,
                                                   sample_three_listened)
    = Some (keyStates_init, s', [(sample_e1, [(1, sample_silent)])]) ∧
    queueAt (activeQueue s') s' = [Some sample_e3; Some sample_e2].
Proof. eexists. split; reflexivity. Qed.

(** C4: [update] with nothing ingested and a non-empty active queue of
    non-null events returns, and always delivers the first event to the
    listeners of its type: the budget is read after a delivery, never before
    one.  It delivers the first [n] events, where every check before the
    [n]-th delivery found the elapsed time within the budget and, when events
    are left, the check after the [n]-th found it above; with the budget
    exceeded at the first check that is one event.  The undelivered events
    are carried to the front of the queue of the next cycle. *)
Theorem update_budget_read_after_delivery
    (InputEvent : InputAction → option InputActionState → Event)
    (maxMs : Q) (elapsedMilliF : nat → Q) (keyStates : vec bool 5)
    (s : GameEventSystem) (e : Event) (rest : list Event) :
  activeQueue s < 2 →
  queueAt (activeQueue s) s = Some <$> e :: rest →
  ∃ s' trace n carried,
    update InputEvent maxMs elapsedMilliF [] (keyStates, s)
    = Some (keyStates, s', trace) ∧
    trace = (λ e', (e', listenersFor s e')) <$> take n (e :: rest) ∧
    (1 ≤ n ≤ length (e :: rest))%nat ∧
    (∀ k, (1 ≤ k < n)%nat → (elapsedMilliF k <= maxMs)%Q) ∧
    ((n < length (e :: rest))%nat → (maxMs < elapsedMilliF n)%Q) ∧
    ((maxMs < elapsedMilliF 1%nat)%Q → n = 1%nat) ∧
    carried ≡ₚ Some <$> drop n (e :: rest) ∧
    activeQueue s' = N.land (activeQueue s + 1) 1 ∧
    queueAt (activeQueue s) s' = [] ∧
    queueAt (activeQueue s') s'
    = carried ++ queueAt (activeQueue s') s ++ (Some <$> queuedIn trace).
Proof.
  intros Hlt Hq.
  destruct (processQueue_state maxMs elapsedMilliF s (e :: rest) Hlt Hq)
    as (s' & Hrun & Hact & _ & _ & Hold & Hnew & _).
  set (n := deliveries maxMs elapsedMilliF 0 (length (e :: rest))) in *.
  exists s', ((λ e', (e', listenersFor s e')) <$> take n (e :: rest)), n,
    (reverse (Some <$> drop n (e :: rest))).
  split_and!.
  - unfold update. cbn [processWindowEvents mbind option_bind].
    by rewrite Hrun.
  - done.
  - apply deliveries_pos. simpl. lia.
  - apply deliveries_le.
  - intros k Hk.
    exact (deliveries_within maxMs elapsedMilliF 0 (length (e :: rest)) k Hk).
  - intros Hleft.
    exact (deliveries_stopped maxMs elapsedMilliF 0 (length (e :: rest)) Hleft).
  - intros Hover. unfold n. simpl.
    destruct (Qlt_le_dec _ _) as [|Hok]; [done|].
    exfalso. by eapply Qlt_not_le.
  - apply reverse_Permutation.
  - done.
  - done.
  - by rewrite Hact.
Qed.

Lemma update_budget_read_after_delivery_witness :
  activeQueue sample_three_listened < 2 ∧
  queueAt (activeQueue sample_three_listened) sample_three_listened
  = Some <$> [sample_e1; sample_e2; sample_e3] ∧
  ∃ s' trace n carried,
    update sample_InputEvent 0%Q sample_clock [] (keyStates_init,
                                                   sample_three_listened)
    = Some (keyStates_init, s', trace) ∧
    trace = (λ e', (e', listenersFor sample_three_listened e'))
              <$> take n [sample_e1; sample_e2; sample_e3] ∧
    (1 ≤ n ≤ 3)%nat ∧
    (∀ k, (1 ≤ k < n)%nat → (sample_clock k <= 0)%Q) ∧
    ((n < 3)%nat → (0 < sample_clock n)%Q) ∧
    ((0 < sample_clock 1%nat)%Q → n = 1%nat) ∧
    carried ≡ₚ Some <$> drop n [sample_e1; sample_e2; sample_e3] ∧
    activeQueue s' = 1 ∧
    queueAt 0 s' = [] ∧
    queueAt (activeQueue s') s'
    = carried ++ queueAt (activeQueue s') sample_three_listened
        ++ (Some <$> queuedIn trace).
Proof.
  split; [reflexivity|]. split; [reflexivity|].
  apply (update_budget_read_after_delivery sample_InputEvent 0%Q sample_clock
           keyStates_init sample_three_listened sample_e1
           [sample_e2; sample_e3]); [reflexivity | reflexivity].
Defined.

(** C6: a drain pass over an active queue of non-null events returns, and
    the events it delivers are a prefix of what the active queue held when
    the pass began.  The index is flipped before the loop, so what the
    listeners queue during the pass is appended to the other queue, which is
    the one the next pass drains; a next pass that stays within its budget
    delivers those events, in the order they were queued. *)
Theorem queued_during_drain_deferred
    (maxMs : Q) (elapsedMilliF : nat → Q) (s : GameEventSystem)
    (evs pend : list Event) :
  activeQueue s < 2 →
  queueAt (activeQueue s) s = Some <$> evs →
  queueAt (N.land (activeQueue s + 1) 1) s = Some <$> pend →
  ∃ s' trace,
    processQueue maxMs elapsedMilliF s = Some (s', trace) ∧
    trace.*1 `prefix_of` evs ∧
    activeQueue s' = N.land (activeQueue s + 1) 1 ∧
    activeQueue s' ≠ activeQueue s ∧
    queueAt (activeQueue s) s' = [] ∧
    (∃ front,
       queueAt (activeQueue s') s' = front ++ (Some <$> queuedIn trace)) ∧
    ∀ maxMs' elapsedMilliF',
      (∀ k, (elapsedMilliF' k <= maxMs')%Q) →
      ∃ s'' trace' before,
        processQueue maxMs' elapsedMilliF' s' = Some (s'', trace') ∧
        trace'.*1 = before ++ queuedIn trace.
Proof.
  intros Hlt Hq Hpend.
  destruct (processQueue_state maxMs elapsedMilliF s evs Hlt Hq)
    as (s' & Hrun & Hact & Hne & Hlt' & Hold & Hnew & _).
  set (n := deliveries maxMs elapsedMilliF 0 (length evs)) in *.
  set (trace := (λ e, (e, listenersFor s e)) <$> take n evs) in *.
  exists s', trace. split; [done|].
  split_and!.
  - unfold trace. rewrite trace_events. apply prefix_take.
  - done.
  - by rewrite Hact.
  - done.
  - rewrite Hact, Hnew, app_assoc. eauto.
  - intros maxMs' elapsedMilliF' Hample.
    assert (queueAt (activeQueue s') s'
            = Some <$> (reverse (drop n evs) ++ pend ++ queuedIn trace))
      as Hq'.
    { by rewrite Hact, Hnew, Hpend, !fmap_app, fmap_reverse. }
    rewrite <- Hact in Hlt'.
    destruct (processQueue_state maxMs' elapsedMilliF' s' _ Hlt' Hq')
      as (s'' & Hrun' & _).
    eexists s'', _, (reverse (drop n evs) ++ pend).
    split; [exact Hrun'|].
    rewrite trace_events, deliveries_ample by done.
    by rewrite firstn_all, <- app_assoc.
Qed.

Lemma queued_during_drain_deferred_witness :
  activeQueue sample_three_following < 2 ∧
  queueAt (activeQueue sample_three_following) sample_three_following
  = Some <$> [sample_e1; sample_e2; sample_e3] ∧
  queueAt (N.land (activeQueue sample_three_following + 1) 1)
    sample_three_following
  = Some <$> [] ∧
  ∃ s' trace,
    processQueue 5%Q sample_clock sample_three_following
    = Some (s', trace) ∧
    trace.*1 `prefix_of` [sample_e1; sample_e2; sample_e3] ∧
    activeQueue s' = 1 ∧
    activeQueue s' ≠ 0 ∧
    queueAt 0 s' = [] ∧
    (∃ front,
       queueAt (activeQueue s') s' = front ++ (Some <$> queuedIn trace)) ∧
    ∀ maxMs' elapsedMilliF',
      (∀ k, (elapsedMilliF' k <= maxMs')%Q) →
      ∃ s'' trace' before,
        processQueue maxMs' elapsedMilliF' s' = Some (s'', trace') ∧
        trace'.*1 = before ++ queuedIn trace.
Proof.
  split; [reflexivity|]. split; [reflexivity|]. split; [reflexivity|].
  apply (queued_during_drain_deferred 5%Q sample_clock sample_three_following
           [sample_e1; sample_e2; sample_e3] []); reflexivity.
Defined.

(** C6, with the budget of the next cycle exhausted: a first update within
    its budget delivers [e1; e2; e3], and the listener queues a follow-up
    during each delivery.  The next update, with budget 0, delivers the first
    follow-up only; the other two are not delivered in the cycle after the
    one that produced them, but one cycle later. *)
Lemma queued_during_drain_deferred_further :
  ∃ s1 trace1 s2 trace2 s3 trace3,
    update sample_InputEvent 5%Q sample_clock []
      (keyStates_init, sample_three_echoed)
    = Some (keyStates_init, s1, trace1) ∧
    trace1.*1 = [sample_e1; sample_e2; sample_e3] ∧
    queuedIn trace1 = [mkEvent 7 "f-e1"; mkEvent 7 "f-e2"; mkEvent 7 "f-e3"] ∧
    update sample_InputEvent 0%Q sample_clock [] (keyStates_init, s1)
    = Some (keyStates_init, s2, trace2) ∧
    trace2.*1 = [mkEvent 7 "f-e1"] ∧
    update sample_InputEvent 5%Q sample_clock [] (keyStates_init, s2)
    = Some (keyStates_init, s3, trace3) ∧
    trace3.*1 = [mkEvent 7 "f-e3"; mkEvent 7 "f-e2"].
Proof.
  do 6 eexists.
  split; [vm_compute; reflexivity|].
  split; [reflexivity|]. split; [reflexivity|].
  split; [vm_compute; reflexivity|].
  split; [reflexivity|].
  split; [vm_compute; reflexivity|].
  reflexivity.
Qed.

(** ** More on the registry *)

Lemma addListener_bucket_present evtID callbackID fn s :
  is_Some (listeners s !! evtID) →
  (addListener evtID callbackID fn s).2 = s.
Proof.
  intros [bucket Hb]. unfold addListener. rewrite Hb.
  by destruct (bucket !! callbackID).
Qed.

Lemma removeListener_bucket_kept evtID callbackID evtID' s :
  is_Some (listeners s !! evtID') →
  is_Some (listeners (removeListener evtID callbackID s).2 !! evtID').
Proof.
  intros Hb. unfold removeListener.
  destruct (listeners s !! evtID) as [bucket|] eqn:Hl; [|done].
  destruct (bucket !! callbackID); [|done]. simpl.
  destruct (decide (evtID = evtID')) as [->|Hne].
  - rewrite lookup_insert_eq. eauto.
  - by rewrite lookup_insert_ne.
Qed.

Lemma bucketEntries_singleton callbackID (fn : EventCallback) :
  bucketEntries {[callbackID := fn]} = [(callbackID, fn)].
Proof. unfold bucketEntries. by rewrite map_to_list_singleton. Qed.

Lemma length_bucketEntries (bucket : EventCallbackMap) :
  length (bucketEntries bucket) = size bucket.
Proof.
  unfold bucketEntries. rewrite merge_sort_Permutation.
  apply length_map_to_list.
Qed.

(** X1: on an event type that has no bucket yet, [addListener] answers true
    and stores the callback; every other pair is registered as before, and
    an event of that type is then delivered to this callback alone. *)
Theorem addListener_first_of_type evtID callbackID fn s :
  listeners s !! evtID = None →
  (addListener evtID callbackID fn s).1 = true ∧
  registered evtID callbackID (addListener evtID callbackID fn s).2 = Some fn ∧
  (∀ evtID' callbackID',
     (evtID', callbackID') ≠ (evtID, callbackID) →
     registered evtID' callbackID' (addListener evtID callbackID fn s).2
     = registered evtID' callbackID' s) ∧
  ∀ e, getID e = evtID →
    ∃ s',
      triggerEvent (Some e) (addListener evtID callbackID fn s).2
      = Some (s', [(callbackID, fn)]).
Proof.
  intros Hnone. rewrite addListener_fresh_type by done. cbn [fst snd].
  unfold registered. cbn [listeners set_listeners]. split_and!.
  - done.
  - rewrite lookup_insert_eq. simpl. apply lookup_singleton_eq.
  - intros evtID' callbackID' Hne.
    destruct (decide (evtID' = evtID)) as [->|Hne'].
    + rewrite lookup_insert_eq, Hnone. simpl.
      apply lookup_singleton_ne. congruence.
    + by rewrite lookup_insert_ne.
  - intros e <-. rewrite triggerEvent_pushed. eexists. f_equal. f_equal.
    unfold listenersFor. cbn [listeners set_listeners].
    rewrite lookup_insert_eq. apply bucketEntries_singleton.
Qed.

Lemma addListener_first_of_type_witness :
  listeners sample_registry !! 2 = None ∧
  (addListener 2 5 sample_follow sample_registry).1 = true ∧
  registered 2 5 (addListener 2 5 sample_follow sample_registry).2
  = Some sample_follow ∧
  (∀ evtID' callbackID',
     (evtID', callbackID') ≠ (2, 5) →
     registered evtID' callbackID'
       (addListener 2 5 sample_follow sample_registry).2
     = registered evtID' callbackID' sample_registry) ∧
  ∀ e, getID e = 2 →
    ∃ s',
      triggerEvent (Some e) (addListener 2 5 sample_follow sample_registry).2
      = Some (s', [(5, sample_follow)]).
Proof.
  split; [reflexivity|].
  apply (addListener_first_of_type 2 5 sample_follow sample_registry).
  reflexivity.
Defined.

(** X2: [addListener] never drops or replaces a registration: a pair that is
    registered is registered with the same callback after any call. *)
Theorem addListener_keeps_registrations evtID callbackID fn evtID' callbackID'
    fn' s :
  registered evtID' callbackID' s = Some fn' →
  registered evtID' callbackID' (addListener evtID callbackID fn s).2
  = Some fn'.
Proof.
  intros Hreg. destruct (listeners s !! evtID) as [bucket|] eqn:Hb.
  - by rewrite addListener_bucket_present by eauto.
  - rewrite addListener_fresh_type by done. cbn [snd].
    unfold registered in *. cbn [listeners set_listeners].
    destruct (decide (evtID' = evtID)) as [->|Hne].
    + by rewrite Hb in Hreg.
    + by rewrite lookup_insert_ne.
Qed.

Lemma addListener_keeps_registrations_witness :
  registered 1 1 sample_registry = Some sample_silent ∧
  registered 1 1 (addListener 2 5 sample_follow sample_registry).2
  = Some sample_silent.
Proof.
  split; [reflexivity|].
  apply (addListener_keeps_registrations 2 5 sample_follow 1 1 sample_silent
           sample_registry).
  reflexivity.
Defined.

(** X3: [removeListener] unregisters the pair it is given and no other: the
    pair is absent afterwards, and every other pair is registered exactly as
    before. *)
Theorem removeListener_only_that_pair evtID callbackID evtID' callbackID' s :
  (evtID', callbackID') ≠ (evtID, callbackID) →
  registered evtID callbackID (removeListener evtID callbackID s).2 = None ∧
  registered evtID' callbackID' (removeListener evtID callbackID s).2
  = registered evtID' callbackID' s.
Proof.
  intros Hne. split; [apply removeListener_removes|].
  unfold registered, removeListener.
  destruct (listeners s !! evtID) as [bucket|] eqn:Hb; [|done].
  destruct (bucket !! callbackID) eqn:Hc; [|done].
  cbn [snd listeners set_listeners].
  destruct (decide (evtID' = evtID)) as [->|Hne'].
  - rewrite lookup_insert_eq, Hb. simpl.
    apply lookup_delete_ne. congruence.
  - by rewrite lookup_insert_ne.
Qed.

Lemma removeListener_only_that_pair_witness :
  (2, 5) ≠ (1, 1) ∧
  registered 1 1
    (removeListener 1 1 (addListener 2 5 sample_follow sample_registry).2).2
  = None ∧
  registered 2 5
    (removeListener 1 1 (addListener 2 5 sample_follow sample_registry).2).2
  = registered 2 5 (addListener 2 5 sample_follow sample_registry).2.
Proof.
  split; [done|].
  apply (removeListener_only_that_pair 1 1 2 5
           (addListener 2 5 sample_follow sample_registry).2).
  done.
Defined.

(** X4: removing a listener leaves its bucket in place, so subscribing again
    under the same event type answers true and registers nothing. *)
Theorem addListener_after_removeListener evtID callbackID fn fn' s :
  registered evtID callbackID s = Some fn →
  let s1 := (removeListener evtID callbackID s).2 in
  addListener evtID callbackID fn' s1 = (true, s1) ∧
  registered evtID callbackID (addListener evtID callbackID fn' s1).2 = None.
Proof.
  intros Hreg s1.
  assert (addListener evtID callbackID fn' s1 = (true, s1)) as Hadd.
  { assert (is_Some (listeners s1 !! evtID)) as [bucket Hb].
    { apply removeListener_bucket_kept. unfold registered in Hreg.
      destruct (listeners s !! evtID); [eauto|done]. }
    pose proof (removeListener_removes evtID callbackID s) as Hgone.
    fold s1 in Hgone. unfold registered in Hgone. rewrite Hb in Hgone.
    by eapply addListener_known_type. }
  rewrite Hadd. split; [done|]. apply removeListener_removes.
Qed.

Lemma addListener_after_removeListener_witness :
  registered 1 1 sample_registry = Some sample_silent ∧
  let s1 := (removeListener 1 1 sample_registry).2 in
  addListener 1 1 sample_follow s1 = (true, s1) ∧
  registered 1 1 (addListener 1 1 sample_follow s1).2 = None.
Proof.
  split; [reflexivity|].
  apply (addListener_after_removeListener 1 1 sample_silent sample_follow
           sample_registry).
  reflexivity.
Defined.

Lemma singleListener_call s c :
  singleListener s → singleListener (runRegistryCall s c).
Proof.
  intros Hinv. destruct c as [evtID callbackID fn | evtID callbackID]; simpl.
  - destruct (listeners s !! evtID) as [bucket|] eqn:Hb.
    + by rewrite addListener_bucket_present by eauto.
    + rewrite addListener_fresh_type by done. intros evtID' bucket'.
      cbn [snd listeners set_listeners].
      destruct (decide (evtID = evtID')) as [->|Hne].
      * rewrite lookup_insert_eq. intros [= <-].
        by rewrite map_size_singleton.
      * rewrite lookup_insert_ne by done. apply Hinv.
  - unfold removeListener.
    destruct (listeners s !! evtID) as [bucket|] eqn:Hb; [|done].
    destruct (bucket !! callbackID) eqn:Hc; [|done].
    intros evtID' bucket'. cbn [snd listeners set_listeners].
    destruct (decide (evtID = evtID')) as [->|Hne].
    + rewrite lookup_insert_eq. intros [= <-].
      rewrite map_size_delete, Hc. specialize (Hinv _ _ Hb). lia.
    + rewrite lookup_insert_ne by done. apply Hinv.
Qed.

Lemma singleListener_calls calls s :
  singleListener s → singleListener (runRegistryCalls calls s).
Proof.
  unfold runRegistryCalls. revert s.
  induction calls as [|c calls IH]; intros s Hinv; simpl; [done|].
  apply IH. by apply singleListener_call.
Qed.

(** X5: whatever sequence of [addListener] and [removeListener] calls is made
    on a new system, no event type ever has more than one listener: an
    immediate delivery invokes at most one callback. *)
Theorem registry_single_listener_per_type calls e :
  ∃ s' invoked,
    triggerEvent (Some e) (runRegistryCalls calls GameEventSystem_new)
    = Some (s', invoked) ∧
    (length invoked ≤ 1)%nat.
Proof.
  rewrite triggerEvent_pushed. do 2 eexists. split; [done|].
  assert (singleListener (runRegistryCalls calls GameEventSystem_new)) as Hinv.
  { apply singleListener_calls. intros evtID bucket. simpl.
    by rewrite lookup_empty. }
  unfold listenersFor.
  destruct (listeners _ !! getID e) as [bucket|] eqn:Hb; [|simpl; lia].
  rewrite length_bucketEntries. by eapply Hinv.
Qed.

(** ** More on aborting *)

Lemma find_if_skip id (pre : list Event) (rest : EventQueue) :
  Forall (λ e, getID e ≠ id) pre →
  find_if (hasID id) ((Some <$> pre) ++ rest)
  = (λ i, (length pre + i)%nat) <$> find_if (hasID id) rest.
Proof.
  induction 1 as [|e pre Hne _ IH]; simpl.
  - by destruct (find_if (hasID id) rest).
  - apply N.eqb_neq in Hne. rewrite Hne. simpl.
    change (list_fmap Event (option Event) Some pre) with (Some <$> pre).
    rewrite IH. by destruct (find_if (hasID id) rest).
Qed.

Lemma find_if_none id (evs : list Event) :
  Forall (λ e, getID e ≠ id) evs →
  find_if (hasID id) (Some <$> evs) = Some (length evs).
Proof.
  intros H. rewrite <- (app_nil_r (Some <$> evs)).
  rewrite find_if_skip by done. simpl. f_equal. lia.
Qed.

Lemma find_if_first id (pre : list Event) (e : Event) (post : EventQueue) :
  Forall (λ e, getID e ≠ id) pre →
  getID e = id →
  find_if (hasID id) ((Some <$> pre) ++ Some e :: post) = Some (length pre).
Proof.
  intros Hpre He. rewrite find_if_skip by done. simpl.
  apply N.eqb_eq in He. rewrite He. simpl. f_equal. lia.
Qed.

(** X6: [abortEvent] erases the first queued event of the type, and only
    that one: the events before it and everything after it stay in place. *)
Theorem abortEvent_first_match id s (pre : list Event) (e : Event)
    (post : EventQueue) :
  queueAt (activeQueue s) s = (Some <$> pre) ++ Some e :: post →
  Forall (λ e', getID e' ≠ id) pre →
  getID e = id →
  abortEvent id s
  = Some (true, setQueueAt (activeQueue s) ((Some <$> pre) ++ post) s).
Proof.
  intros Hq Hpre He. unfold abortEvent. rewrite Hq.
  rewrite find_if_first by done. cbn [mbind option_bind].
  rewrite length_app, length_fmap. cbn [length].
  destruct (decide _) as [Heq|_]; [lia|].
  do 3 f_equal.
  rewrite <- (length_fmap Some pre). apply delete_middle.
Qed.

Lemma abortEvent_first_match_witness :
  queueAt (activeQueue sample_mixed_queue) sample_mixed_queue
  = (Some <$> [mkEvent 1 "A"])
      ++ Some (mkEvent 2 "B") :: [Some (mkEvent 1 "A2")] ∧
  Forall (λ e', getID e' ≠ 2) [mkEvent 1 "A"] ∧
  getID (mkEvent 2 "B") = 2 ∧
  abortEvent 2 sample_mixed_queue
  = Some (true,
          setQueueAt (activeQueue sample_mixed_queue)
            ((Some <$> [mkEvent 1 "A"]) ++ [Some (mkEvent 1 "A2")])
            sample_mixed_queue).
Proof.
  assert (Forall (λ e', getID e' ≠ 2) [mkEvent 1 "A"]) as H
    by (repeat constructor; done).
  split; [reflexivity|]. split; [exact H|]. split; [reflexivity|].
  apply (abortEvent_first_match 2 sample_mixed_queue [mkEvent 1 "A"]
           (mkEvent 2 "B") [Some (mkEvent 1 "A2")]);
    [reflexivity | exact H | reflexivity].
Defined.

(** X7: when no queued event has the type, [abortEvent] answers false and
    leaves the system as it was. *)
Theorem abortEvent_no_match id s (evs : list Event) :
  queueAt (activeQueue s) s = Some <$> evs →
  Forall (λ e, getID e ≠ id) evs →
  abortEvent id s = Some (false, s).
Proof.
  intros Hq Hevs. unfold abortEvent. rewrite Hq.
  rewrite find_if_none by done. cbn [mbind option_bind].
  rewrite length_fmap. by destruct (decide _).
Qed.

Lemma abortEvent_no_match_witness :
  queueAt (activeQueue sample_three_queued) sample_three_queued
  = Some <$> [sample_e1; sample_e2; sample_e3] ∧
  Forall (λ e, getID e ≠ 4) [sample_e1; sample_e2; sample_e3] ∧
  abortEvent 4 sample_three_queued = Some (false, sample_three_queued).
Proof.
  assert (Forall (λ e, getID e ≠ 4) [sample_e1; sample_e2; sample_e3]) as H
    by (repeat constructor; done).
  split; [reflexivity|]. split; [exact H|].
  apply (abortEvent_no_match 4 sample_three_queued
           [sample_e1; sample_e2; sample_e3]); [reflexivity | exact H].
Defined.

(** X8: queueing an event and then aborting its type gives back the state
    before the two calls, when no event of that type was queued already. *)
Theorem queueEvent_abortEvent_roundtrip e s (evs : list Event) :
  queueAt (activeQueue s) s = Some <$> evs →
  Forall (λ e', getID e' ≠ getID e) evs →
  queueEvent (Some e) s ≫= abortEvent (getID e) = Some (true, s).
Proof.
  intros Hq Hevs. rewrite queueEvent_pushed. cbn [mbind option_bind].
  rewrite (abortEvent_first_match (getID e) (pushed [e] s) evs e []).
  - rewrite app_nil_r, activeQueue_pushed. unfold pushed.
    by rewrite setQueueAt_setQueueAt, <- Hq, setQueueAt_queueAt.
  - by rewrite activeQueue_pushed, queueAt_pushed, Hq.
  - done.
  - done.
Qed.

Lemma queueEvent_abortEvent_roundtrip_witness :
  queueAt (activeQueue sample_three_queued) sample_three_queued
  = Some <$> [sample_e1; sample_e2; sample_e3] ∧
  Forall (λ e', getID e' ≠ getID (mkEvent 4 "D"))
    [sample_e1; sample_e2; sample_e3] ∧
  queueEvent (Some (mkEvent 4 "D")) sample_three_queued
    ≫= abortEvent (getID (mkEvent 4 "D"))
  = Some (true, sample_three_queued).
Proof.
  assert (Forall (λ e', getID e' ≠ getID (mkEvent 4 "D"))
            [sample_e1; sample_e2; sample_e3]) as H
    by (repeat constructor; done).
  split; [reflexivity|]. split; [exact H|].
  apply (queueEvent_abortEvent_roundtrip (mkEvent 4 "D") sample_three_queued
           [sample_e1; sample_e2; sample_e3]); [reflexivity | exact H].
Defined.

(** ** What [abortAllEvents] leaves in the queue *)

Lemma keptEvents_cons_ne id e evs :
  getID e ≠ id → keptEvents id (e :: evs) = e :: keptEvents id evs.
Proof. intros H. unfold keptEvents. by rewrite filter_cons_True. Qed.

Lemma keptEvents_cons_eq id e evs :
  getID e = id → keptEvents id (e :: evs) = keptEvents id evs.
Proof.
  intros H. unfold keptEvents. rewrite filter_cons_False; [done|].
  by intros ?.
Qed.

Lemma keptEvents_all id evs :
  Forall (λ e, getID e ≠ id) evs → keptEvents id evs = evs.
Proof.
  induction 1 as [|e evs Hne _ IH]; [done|].
  by rewrite keptEvents_cons_ne, IH.
Qed.

Lemma keptEvents_app id evs1 evs2 :
  keptEvents id (evs1 ++ evs2) = keptEvents id evs1 ++ keptEvents id evs2.
Proof. apply filter_app. Qed.

Lemma length_keptEvents id evs :
  (length (keptEvents id evs) ≤ length evs)%nat.
Proof. apply length_filter. Qed.

(** The loop, started behind a first match: [pre] is what has been written,
    [mid] the slots passed and not yet overwritten, [rest] what is ahead. *)
Lemma remove_if_loop_spec id (pre mid : EventQueue) (rest : list Event) :
  mid ≠ [] →
  remove_if_loop (hasID id) (length rest) (length pre + length mid)
    (length pre) (pre ++ mid ++ (Some <$> rest))
  = Some (pre ++ (Some <$> keptEvents id rest)
              ++ drop (length (keptEvents id rest))
                   (mid ++ (passedSlot id <$> rest)),
          (length pre + length (keptEvents id rest))%nat).
Proof.
  revert pre mid. induction rest as [|x rest IH]; intros pre mid Hmid.
  - simpl. by rewrite Nat.add_0_r.
  - cbn [length remove_if_loop].
    assert ((pre ++ mid ++ (Some <$> x :: rest))
              !! (length pre + length mid)%nat = Some (Some x)) as ->.
    { cbn [fmap list_fmap]. rewrite app_assoc, <- length_app.
      by apply list_lookup_middle. }
    cbn [mbind option_bind hasID].
    destruct (getID x =? id) eqn:Hx.
    + apply N.eqb_eq in Hx.
      replace (pre ++ mid ++ (Some <$> x :: rest))
        with (pre ++ (mid ++ [Some x]) ++ (Some <$> rest))
        by (by rewrite <- !app_assoc).
      replace (S (length pre + length mid))
        with (length pre + length (mid ++ [Some x]))%nat
        by (rewrite length_app; simpl; lia).
      rewrite IH by (by destruct mid).
      rewrite keptEvents_cons_eq by done.
      cbn [fmap list_fmap]. unfold passedSlot at 2.
      apply N.eqb_eq in Hx. rewrite Hx.
      by rewrite <- !app_assoc.
    + apply N.eqb_neq in Hx.
      destruct mid as [|m0 mid0]; [done|].
      assert (<[(length pre + length (m0 :: mid0))%nat := None]>
                (<[length pre := Some x]>
                   (pre ++ (m0 :: mid0) ++ (Some <$> x :: rest)))
              = (pre ++ [Some x]) ++ (mid0 ++ [None]) ++ (Some <$> rest))
        as ->.
      { cbn [fmap list_fmap length].
        rewrite (insert_app_r_alt pre _ (length pre)) by lia.
        rewrite Nat.sub_diag. cbn [app insert list_insert].
        rewrite insert_app_r_alt by lia.
        replace (length pre + S (length mid0) - length pre)%nat
          with (S (length mid0)) by lia.
        cbn [insert list_insert].
        change (list_insert (length mid0) None (mid0 ++ Some x :: (Some <$> rest)))
          with (<[length mid0 := None]> (mid0 ++ Some x :: (Some <$> rest))).
        rewrite (insert_app_r_alt mid0 _ (length mid0)) by lia.
        rewrite Nat.sub_diag. cbn [insert list_insert].
        by rewrite <- !app_assoc. }
      replace (S (length pre + length (m0 :: mid0)))
        with (length (pre ++ [Some x]) + length (mid0 ++ [None]))%nat
        by (rewrite !length_app; simpl; lia).
      replace (S (length pre)) with (length (pre ++ [Some x]))
        by (rewrite length_app; simpl; lia).
      rewrite IH by (by destruct mid0).
      rewrite keptEvents_cons_ne by done.
      cbn [fmap list_fmap length drop app]. unfold passedSlot at 2.
      apply N.eqb_neq in Hx. rewrite Hx.
      rewrite length_app. cbn [length].
      rewrite <- !app_assoc. cbn [app]. do 2 f_equal. lia.
Qed.

Lemma remove_if_no_match id (evs : list Event) :
  Forall (λ e, getID e ≠ id) evs →
  remove_if (hasID id) (Some <$> evs) = Some (Some <$> evs, length evs).
Proof.
  intros H. unfold remove_if. rewrite find_if_none by done.
  cbn [mbind option_bind]. rewrite length_fmap.
  by destruct (decide _).
Qed.

Lemma remove_if_first_match id (pre : list Event) (m : Event)
    (rest : list Event) :
  Forall (λ e, getID e ≠ id) pre →
  getID m = id →
  remove_if (hasID id) (Some <$> pre ++ m :: rest)
  = Some ((Some <$> pre) ++ (Some <$> keptEvents id rest)
            ++ drop (length (keptEvents id rest))
                 (Some m :: (passedSlot id <$> rest)),
          (length pre + length (keptEvents id rest))%nat).
Proof.
  intros Hpre Hm. unfold remove_if.
  rewrite fmap_app. cbn [fmap list_fmap].
  rewrite find_if_first by done. cbn [mbind option_bind].
  rewrite length_app, length_fmap. cbn [length]. rewrite length_fmap.
  destruct (decide _) as [Heq|_]; [lia|].
  replace (length pre + S (length rest) - S (length pre))%nat
    with (length rest) by lia.
  pose proof (remove_if_loop_spec id (Some <$> pre) [Some m] rest) as Hloop.
  rewrite length_fmap in Hloop. cbn [length app] in Hloop.
  replace (length pre + 1)%nat with (S (length pre)) in Hloop by lia.
  by rewrite Hloop.
Qed.

Lemma first_match_split id (evs : list Event) :
  Forall (λ e, getID e ≠ id) evs ∨
  ∃ pre m rest,
    evs = pre ++ m :: rest ∧ Forall (λ e, getID e ≠ id) pre ∧ getID m = id.
Proof.
  induction evs as [|e evs IH]; [by left|].
  destruct (decide (getID e = id)) as [He|He].
  - right. by exists [], e, evs.
  - destruct IH as [Hall | (pre & m & rest & -> & Hpre & Hm)].
    + left. by constructor.
    + right. exists (e :: pre), m, rest. split_and!; [done| |done].
      by constructor.
Qed.

Lemma passedSlot_cases id e :
  passedSlot id e = None ∨ ∃ e', passedSlot id e = Some e' ∧ getID e' = id.
Proof.
  unfold passedSlot. destruct (getID e =? id) eqn:He; [|by left].
  right. exists e. split; [done|]. by apply N.eqb_eq.
Qed.

(** X9: on an active queue without null pointers [abortAllEvents] returns,
    and what it returns is 0.  The events of the other types are moved to
    the front of the queue, in their order; behind them the queue keeps one
    slot for every event of the aborted type, each holding a null pointer
    or an event of that type. *)
Theorem abortAllEvents_shifts_survivors id s (evs : list Event) :
  queueAt (activeQueue s) s = Some <$> evs →
  ∃ tail,
    abortAllEvents id s
    = Some (0, setQueueAt (activeQueue s)
                 ((Some <$> keptEvents id evs) ++ tail) s) ∧
    length tail = (length evs - length (keptEvents id evs))%nat ∧
    Forall (λ p, p = None ∨ ∃ e, p = Some e ∧ getID e = id) tail.
Proof.
  intros Hq. unfold abortAllEvents. rewrite Hq.
  destruct (first_match_split id evs)
    as [Hall | (pre & m & rest & -> & Hpre & Hm)].
  - exists []. rewrite remove_if_no_match by done.
    cbn [mbind option_bind]. rewrite uint32_size_difference.
    rewrite keptEvents_all by done. split_and!.
    + by rewrite app_nil_r.
    + simpl. lia.
    + constructor.
  - exists (drop (length (keptEvents id rest))
              (Some m :: (passedSlot id <$> rest))).
    pose proof (remove_if_first_match id pre m rest Hpre Hm) as Hrun.
    pose proof (remove_if_length _ _ _ _ Hrun) as Hlen.
    rewrite Hrun. cbn [mbind option_bind].
    rewrite keptEvents_app, keptEvents_cons_eq by done.
    rewrite (keptEvents_all id pre) by done.
    split_and!.
    + rewrite Hlen, uint32_size_difference.
      by rewrite fmap_app, <- app_assoc.
    + rewrite length_drop. cbn [length]. rewrite length_fmap, !length_app.
      cbn [length]. pose proof (length_keptEvents id rest). lia.
    + apply Forall_drop. constructor; [right; eauto|].
      apply Forall_fmap, Forall_forall. intros e _. apply passedSlot_cases.
Qed.

Lemma abortAllEvents_shifts_survivors_witness :
  queueAt (activeQueue sample_mixed_queue) sample_mixed_queue
  = Some <$> [mkEvent 1 "A"; mkEvent 2 "B"; mkEvent 1 "A2"] ∧
  ∃ tail,
    abortAllEvents 1 sample_mixed_queue
    = Some (0, setQueueAt (activeQueue sample_mixed_queue)
                 ((Some <$> keptEvents 1
                     [mkEvent 1 "A"; mkEvent 2 "B"; mkEvent 1 "A2"])
                    ++ tail) sample_mixed_queue) ∧
    length tail
    = (length [mkEvent 1 "A"; mkEvent 2 "B"; mkEvent 1 "A2"]
       - length (keptEvents 1
                   [mkEvent 1 "A"; mkEvent 2 "B"; mkEvent 1 "A2"]))%nat ∧
    Forall (λ p, p = None ∨ ∃ e, p = Some e ∧ getID e = 1) tail.
Proof.
  split; [reflexivity|].
  apply (abortAllEvents_shifts_survivors 1 sample_mixed_queue
           [mkEvent 1 "A"; mkEvent 2 "B"; mkEvent 1 "A2"]).
  reflexivity.
Defined.

(** X10: when no queued event has the type, [abortAllEvents] returns 0 and
    leaves the system as it was. *)
Theorem abortAllEvents_no_match id s (evs : list Event) :
  queueAt (activeQueue s) s = Some <$> evs →
  Forall (λ e, getID e ≠ id) evs →
  abortAllEvents id s = Some (0, s).
Proof.
  intros Hq Hall. unfold abortAllEvents. rewrite Hq.
  rewrite remove_if_no_match by done. cbn [mbind option_bind].
  by rewrite uint32_size_difference, <- Hq, setQueueAt_queueAt.
Qed.

Lemma abortAllEvents_no_match_witness :
  queueAt (activeQueue sample_three_queued) sample_three_queued
  = Some <$> [sample_e1; sample_e2; sample_e3] ∧
  Forall (λ e, getID e ≠ 4) [sample_e1; sample_e2; sample_e3] ∧
  abortAllEvents 4 sample_three_queued = Some (0, sample_three_queued).
Proof.
  assert (Forall (λ e, getID e ≠ 4) [sample_e1; sample_e2; sample_e3]) as H
    by (repeat constructor; done).
  split; [reflexivity|]. split; [exact H|].
  apply (abortAllEvents_no_match 4 sample_three_queued
           [sample_e1; sample_e2; sample_e3]); [reflexivity | exact H].
Defined.

(** ** Null pointers in the queue *)

Lemma first_null_split (q : EventQueue) :
  None ∈ q → ∃ (pre : list Event) post, q = (Some <$> pre) ++ None :: post.
Proof.
  induction q as [|[e|] q IH]; intros Hin.
  - by apply elem_of_nil in Hin.
  - apply elem_of_cons in Hin as [|Hin]; [done|].
    destruct (IH Hin) as (pre & post & ->). by exists (e :: pre), post.
  - by exists [], q.
Qed.

Lemma processQueue_loop_null maxMs elapsedMilliF fuel qi count s
    (pre : list Event) post :
  (qi = 0 ↔ activeQueue s ≠ 0) →
  queueAt qi s = (Some <$> pre) ++ None :: post →
  (∀ k, (elapsedMilliF k <= maxMs)%Q) →
  processQueue_loop maxMs elapsedMilliF fuel qi count s = None.
Proof.
  intros Hidx Hq Hample. revert fuel count s Hidx Hq.
  induction pre as [|e pre IH]; intros fuel count s Hidx Hq.
  - destruct fuel; cbn [processQueue_loop]; by rewrite Hq.
  - destruct fuel as [|fuel]; cbn [processQueue_loop]; rewrite Hq;
      cbn [fmap list_fmap app mbind option_bind]; [done|].
    rewrite triggerEvent_pushed. cbn [mbind option_bind].
    destruct (Qlt_le_dec _ _) as [Hover|_].
    { exfalso. eapply Qlt_not_le; [exact Hover | apply Hample]. }
    rewrite IH; [done| |].
    + by rewrite activeQueue_pushed, activeQueue_setQueueAt.
    + rewrite queueAt_pushed_other
        by (rewrite activeQueue_setQueueAt; lia).
      apply queueAt_setQueueAt.
Qed.

Lemma processQueue_null maxMs elapsedMilliF s :
  activeQueue s < 2 →
  None ∈ queueAt (activeQueue s) s →
  (∀ k, (elapsedMilliF k <= maxMs)%Q) →
  processQueue maxMs elapsedMilliF s = None.
Proof.
  intros Hlt (pre & post & Hq)%first_null_split Hample.
  unfold processQueue.
  apply (processQueue_loop_null _ _ _ _ _ _ pre post); [|exact Hq|done].
  cbn [activeQueue set_activeQueue]. rewrite flip_index by done. lia.
Qed.

Lemma last_other_split id (evs : list Event) :
  Exists (λ e, getID e ≠ id) evs →
  ∃ r1 x r2,
    evs = r1 ++ x :: r2 ∧ getID x ≠ id ∧ Forall (λ e, getID e = id) r2.
Proof.
  induction evs as [|e evs IH] using rev_ind; intros Hex.
  - by apply Exists_nil in Hex.
  - destruct (decide (getID e = id)) as [He|He].
    + apply Exists_app in Hex as [Hex|Hex].
      * destruct (IH Hex) as (r1 & x & r2 & -> & Hx & Hr2).
        exists r1, x, (r2 ++ [e]). rewrite <- app_assoc. split_and!; [done..|].
        apply Forall_app. split; [done|]. by constructor.
      * apply Exists_cons in Hex as [?|Hex]; [done|].
        by apply Exists_nil in Hex.
    + exists evs, e, []. by split_and!.
Qed.

Lemma keptEvents_none id evs :
  Forall (λ e, getID e = id) evs → keptEvents id evs = [].
Proof.
  induction 1 as [|e evs He _ IH]; [done|].
  by rewrite keptEvents_cons_eq.
Qed.

Lemma passed_slots_null id (m : Event) (rest : list Event) :
  Exists (λ e, getID e ≠ id) rest →
  None ∈ drop (length (keptEvents id rest))
           (Some m :: (passedSlot id <$> rest)).
Proof.
  intros (r1 & x & r2 & -> & Hx & Hr2)%last_other_split.
  rewrite keptEvents_app, keptEvents_cons_ne by done.
  rewrite (keptEvents_none id r2) by done.
  rewrite length_app. cbn [length].
  replace (length (keptEvents id r1) + 1)%nat
    with (S (length (keptEvents id r1))) by lia.
  cbn [drop]. rewrite fmap_app. cbn [fmap list_fmap].
  rewrite drop_app_le
    by (rewrite length_fmap; apply length_keptEvents).
  apply elem_of_app. right. apply elem_of_cons. left.
  unfold passedSlot. apply N.eqb_neq in Hx. by rewrite Hx.
Qed.

(** X11: when the first queued event of the aborted type is followed by an
    event of another type, [abortAllEvents] leaves a null pointer in the
    active queue; the next drain pass, given a budget that lets it get
    there, stops at the failing assertion of [triggerEvent]. *)
Theorem abortAllEvents_then_drain_fails maxMs elapsedMilliF id s
    (pre : list Event) (m : Event) (rest : list Event) :
  activeQueue s < 2 →
  queueAt (activeQueue s) s = Some <$> pre ++ m :: rest →
  Forall (λ e, getID e ≠ id) pre →
  getID m = id →
  Exists (λ e, getID e ≠ id) rest →
  (∀ k, (elapsedMilliF k <= maxMs)%Q) →
  ∃ s',
    abortAllEvents id s = Some (0, s') ∧
    None ∈ queueAt (activeQueue s') s' ∧
    processQueue maxMs elapsedMilliF s' = None.
Proof.
  intros Hlt Hq Hpre Hm Hex Hample.
  pose proof (remove_if_first_match id pre m rest Hpre Hm) as Hrun.
  pose proof (remove_if_length _ _ _ _ Hrun) as Hlen.
  eexists. split.
  { unfold abortAllEvents. rewrite Hq, Hrun. cbn [mbind option_bind].
    by rewrite Hlen, uint32_size_difference. }
  assert (None ∈ queueAt (activeQueue s)
            (setQueueAt (activeQueue s)
               ((Some <$> pre) ++ (Some <$> keptEvents id rest)
                  ++ drop (length (keptEvents id rest))
                       (Some m :: (passedSlot id <$> rest))) s)) as Hnull.
  { rewrite queueAt_setQueueAt. apply elem_of_app. right.
    apply elem_of_app. right. by apply passed_slots_null. }
  rewrite activeQueue_setQueueAt. split; [done|].
  apply processQueue_null; [|by rewrite activeQueue_setQueueAt|done].
  by rewrite activeQueue_setQueueAt.
Qed.

Lemma abortAllEvents_then_drain_fails_witness :
  activeQueue sample_mixed_queue < 2 ∧
  queueAt (activeQueue sample_mixed_queue) sample_mixed_queue
  = Some <$> [] ++ mkEvent 1 "A" :: [mkEvent 2 "B"; mkEvent 1 "A2"] ∧
  Forall (λ e, getID e ≠ 1) [] ∧
  getID (mkEvent 1 "A") = 1 ∧
  Exists (λ e, getID e ≠ 1) [mkEvent 2 "B"; mkEvent 1 "A2"] ∧
  (∀ k, (sample_clock k <= 5)%Q) ∧
  ∃ s',
    abortAllEvents 1 sample_mixed_queue = Some (0, s') ∧
    None ∈ queueAt (activeQueue s') s' ∧
    processQueue 5%Q sample_clock s' = None.
Proof.
  assert (Exists (λ e, getID e ≠ 1) [mkEvent 2 "B"; mkEvent 1 "A2"]) as Hex
    by (apply Exists_cons_hd; done).
  assert (∀ k, (sample_clock k <= 5)%Q) as Hample by (intros k; done).
  split; [reflexivity|]. split; [reflexivity|]. split; [constructor|].
  split; [reflexivity|]. split; [exact Hex|]. split; [exact Hample|].
  apply (abortAllEvents_then_drain_fails 5%Q sample_clock 1 sample_mixed_queue
           [] (mkEvent 1 "A") [mkEvent 2 "B"; mkEvent 1 "A2"]);
    [reflexivity | reflexivity | constructor | reflexivity | exact Hex
    | exact Hample].
Defined.

(** ** More on the drain *)

(** X12: a pass that stays within its budget delivers every event of the
    active queue, in queue order, each to the listeners of its type; it
    leaves that queue empty and the other queue holding what it held,
    followed by what the listeners queued. *)
Theorem processQueue_ample_budget maxMs elapsedMilliF s (evs : list Event) :
  activeQueue s < 2 →
  queueAt (activeQueue s) s = Some <$> evs →
  (∀ k, (elapsedMilliF k <= maxMs)%Q) →
  ∃ s' trace,
    processQueue maxMs elapsedMilliF s = Some (s', trace) ∧
    trace = (λ e, (e, listenersFor s e)) <$> evs ∧
    activeQueue s' = N.land (activeQueue s + 1) 1 ∧
    queueAt (activeQueue s) s' = [] ∧
    queueAt (activeQueue s') s'
    = queueAt (activeQueue s') s ++ (Some <$> queuedIn trace).
Proof.
  intros Hlt Hq Hample.
  destruct (processQueue_state maxMs elapsedMilliF s evs Hlt Hq)
    as (s' & Hrun & Hact & _ & _ & Hold & Hnew & _).
  rewrite deliveries_ample, firstn_all in Hrun, Hnew by done.
  rewrite drop_all in Hnew.
  eexists s', _. split_and!; [exact Hrun|done..|].
  by rewrite Hact, Hnew.
Qed.

Lemma processQueue_ample_budget_witness :
  activeQueue sample_three_following < 2 ∧
  queueAt (activeQueue sample_three_following) sample_three_following
  = Some <$> [sample_e1; sample_e2; sample_e3] ∧
  (∀ k, (sample_clock k <= 5)%Q) ∧
  ∃ s' trace,
    processQueue 5%Q sample_clock sample_three_following = Some (s', trace) ∧
    trace = (λ e, (e, listenersFor sample_three_following e))
              <$> [sample_e1; sample_e2; sample_e3] ∧
    activeQueue s' = N.land (activeQueue sample_three_following + 1) 1 ∧
    queueAt (activeQueue sample_three_following) s' = [] ∧
    queueAt (activeQueue s') s'
    = queueAt (activeQueue s') sample_three_following
        ++ (Some <$> queuedIn trace).
Proof.
  assert (∀ k, (sample_clock k <= 5)%Q) as Hample by (intros k; done).
  split; [reflexivity|]. split; [reflexivity|]. split; [exact Hample|].
  apply (processQueue_ample_budget 5%Q sample_clock sample_three_following
           [sample_e1; sample_e2; sample_e3]);
    [reflexivity | reflexivity | exact Hample].
Defined.

(** X13: whatever the budget, a pass over an active queue without null
    pointers loses no event: the events it did not deliver are put in front
    of the other queue, last first, and the delivered events together with
    the other queue afterwards are, up to order, what the two queues held
    plus what the listeners queued. *)
Theorem processQueue_keeps_every_event maxMs elapsedMilliF s
    (evs : list Event) :
  activeQueue s < 2 →
  queueAt (activeQueue s) s = Some <$> evs →
  ∃ s' trace n,
    processQueue maxMs elapsedMilliF s = Some (s', trace) ∧
    trace.*1 = take n evs ∧
    queueAt (activeQueue s) s' = [] ∧
    queueAt (activeQueue s') s'
    = reverse (Some <$> drop n evs) ++ queueAt (activeQueue s') s
        ++ (Some <$> queuedIn trace) ∧
    (Some <$> trace.*1) ++ queueAt (activeQueue s') s'
    ≡ₚ queueAt (activeQueue s) s ++ queueAt (activeQueue s') s
         ++ (Some <$> queuedIn trace).
Proof.
  intros Hlt Hq.
  destruct (processQueue_state maxMs elapsedMilliF s evs Hlt Hq)
    as (s' & Hrun & Hact & _ & _ & Hold & Hnew & _).
  set (n := deliveries maxMs elapsedMilliF 0 (length evs)) in *.
  eexists s', _, n. split_and!; [exact Hrun| |done| |].
  - apply trace_events.
  - by rewrite Hact, Hnew.
  - rewrite trace_events, Hact, Hnew, Hq.
    rewrite reverse_Permutation, app_assoc, <- fmap_app.
    by rewrite take_drop.
Qed.

Lemma processQueue_keeps_every_event_witness :
  activeQueue sample_three_following < 2 ∧
  queueAt (activeQueue sample_three_following) sample_three_following
  = Some <$> [sample_e1; sample_e2; sample_e3] ∧
  ∃ s' trace n,
    processQueue 0%Q sample_clock sample_three_following = Some (s', trace) ∧
    trace.*1 = take n [sample_e1; sample_e2; sample_e3] ∧
    queueAt (activeQueue sample_three_following) s' = [] ∧
    queueAt (activeQueue s') s'
    = reverse (Some <$> drop n [sample_e1; sample_e2; sample_e3])
        ++ queueAt (activeQueue s') sample_three_following
        ++ (Some <$> queuedIn trace) ∧
    (Some <$> trace.*1) ++ queueAt (activeQueue s') s'
    ≡ₚ queueAt (activeQueue sample_three_following) sample_three_following
         ++ queueAt (activeQueue s') sample_three_following
         ++ (Some <$> queuedIn trace).
Proof.
  split; [reflexivity|]. split; [reflexivity|].
  apply (processQueue_keeps_every_event 0%Q sample_clock
           sample_three_following [sample_e1; sample_e2; sample_e3]);
    reflexivity.
Defined.

(** X14: every pass that returns leaves the queue index at 0 or 1, whatever
    it was, and from 0 or 1 it moves it to the other value; two passes bring
    it back. *)
Theorem processQueue_index_alternates maxMs1 elapsed1 maxMs2 elapsed2
    s s1 s2 trace1 trace2 :
  processQueue maxMs1 elapsed1 s = Some (s1, trace1) →
  processQueue maxMs2 elapsed2 s1 = Some (s2, trace2) →
  activeQueue s1 < 2 ∧
  activeQueue s2 < 2 ∧
  activeQueue s2 ≠ activeQueue s1 ∧
  (activeQueue s < 2 → activeQueue s2 = activeQueue s).
Proof.
  unfold processQueue.
  intros H1%processQueue_loop_activeQueue H2%processQueue_loop_activeQueue.
  cbn [activeQueue set_activeQueue] in *.
  assert (activeQueue s1 < 2) as Hlt1
    by (rewrite H1; apply flip_index_bound).
  split_and!.
  - done.
  - rewrite H2. apply flip_index_bound.
  - rewrite H2, flip_index by done. lia.
  - intros Hlt. rewrite H2, flip_index, H1, flip_index by done. lia.
Qed.

Lemma processQueue_index_alternates_witness :
  ∃ s1 s2 trace1 trace2,
    processQueue 5%Q sample_clock sample_three_following
    = Some (s1, trace1) ∧
    processQueue 5%Q sample_clock s1 = Some (s2, trace2) ∧
    activeQueue s1 < 2 ∧
    activeQueue s2 < 2 ∧
    activeQueue s2 ≠ activeQueue s1 ∧
    (activeQueue sample_three_following < 2 →
     activeQueue s2 = activeQueue sample_three_following).
Proof.
  do 4 eexists.
  assert (∀ A B C : Prop, A → B → (A → B → C) → A ∧ B ∧ C) as Hcut
    by tauto.
  apply Hcut; [vm_compute; reflexivity | vm_compute; reflexivity |].
  apply (processQueue_index_alternates 5%Q sample_clock 5%Q sample_clock
           sample_three_following).
Defined.

(** ** More on raw input *)

Lemma set_windowOpen_pushed b l s :
  set_windowOpen b (pushed l s) = pushed l (set_windowOpen b s).
Proof.
  unfold pushed, setQueueAt, queueAt, set_windowOpen. simpl.
  by destruct (decide (activeQueue s = 0)).
Qed.

Lemma set_windowOpen_same s : set_windowOpen (windowOpen s) s = s.
Proof. by destruct s. Qed.

Lemma windowOpen_pushed l s : windowOpen (pushed l s) = windowOpen s.
Proof. apply windowOpen_setQueueAt. Qed.

Lemma length_edgeEvents InputEvent action pressed held :
  (length (edgeEvents InputEvent action pressed held) ≤ 1)%nat.
Proof.
  unfold edgeEvents.
  destruct (Bool.eqb held pressed), pressed, (isPulse action); simpl; lia.
Qed.

(** Comparisons of event types between constructors are evaluated. *)
Ltac decide_types :=
  repeat match goal with
         | |- context [bool_decide (?a = ?b)] =>
             let v := eval vm_compute in (bool_decide (a = b)) in
             change (bool_decide (a = b)) with v
         end.

(** A key transition of a control: the flag takes the state of the key, and
    the queue receives the events of the edge, if there is one. *)
Lemma dispatchKeyboardEvent_control InputEvent ty k slot action keyStates s :
  control k = Some (slot, action) →
  ty = sf.KeyPressed ∨ ty = sf.KeyReleased →
  let pressed := bool_decide (ty = sf.KeyPressed) in
  dispatchKeyboardEvent InputEvent (sf.mkEvent ty k) (keyStates, s)
  = Some (vinsert slot pressed keyStates,
          pushed (edgeEvents InputEvent action pressed (keyStates !!! slot))
            s).
Proof.
  intros Hc Hty pressed.
  assert (∀ e s', queueEvent (Some e) s' = Some (pushed [e] s')) as Hq by done.
  destruct k; simpl in Hc; simplify_eq;
    destruct Hty as [-> | ->]; subst pressed;
    unfold dispatchKeyboardEvent, edgeEvents;
    cbn [sf.type sf.code isPulse];
    decide_types; cbn [negb orb andb];
    match goal with
    | |- context [keyStates !!! ?i] =>
        destruct (keyStates !!! i) eqn:Hheld
    end;
    cbn [negb andb Bool.eqb]; rewrite ?Hq; cbn [mbind option_bind];
    rewrite ?pushed_nil; try done;
    by rewrite <- Hheld, vlookup_insert_self.
Qed.

(** What [processWindowEvents] hands to [dispatchKeyboardEvent] never fails
    its assertion, and queues at most one event. *)
Lemma dispatchKeyboardEvent_key InputEvent evt keyStates s :
  sf.type evt = sf.KeyPressed ∨ sf.type evt = sf.KeyReleased →
  ∃ keyStates' new,
    dispatchKeyboardEvent InputEvent evt (keyStates, s)
    = Some (keyStates', pushed new s) ∧
    (length new ≤ 1)%nat.
Proof.
  intros Hty. destruct evt as [ty k]. cbn [sf.type] in Hty.
  destruct (control k) as [[slot action]|] eqn:Hc.
  - do 2 eexists. split.
    + by apply (dispatchKeyboardEvent_control _ _ _ slot action).
    + apply length_edgeEvents.
  - exists keyStates, []. split; [|simpl; lia].
    destruct k; simpl in Hc; simplify_eq.
    unfold dispatchKeyboardEvent. cbn [sf.type sf.code].
    rewrite pushed_nil.
    destruct Hty as [-> | ->];
      rewrite ?bool_decide_eq_true_2 by done;
      rewrite ?bool_decide_eq_false_2 by done; done.
Qed.

Lemma processWindowEvents_spec InputEvent polled keyStates s :
  ∃ keyStates' new,
    processWindowEvents InputEvent polled (keyStates, s)
    = Some (keyStates',
            set_windowOpen (windowOpen s && noneClosed polled)
              (pushed new s)) ∧
    (length new ≤ length polled)%nat.
Proof.
  revert keyStates s.
  induction polled as [|evt polled IH]; intros keyStates s.
  - exists keyStates, []. split; [|done]. simpl.
    by rewrite andb_true_r, pushed_nil, set_windowOpen_same.
  - cbn [processWindowEvents noneClosed forallb].
    destruct (bool_decide (sf.type evt = sf.Closed)) eqn:Hclosed.
    + cbn [mbind option_bind fst snd negb andb].
      destruct (IH keyStates (set_windowOpen false s))
        as (keyStates' & new & -> & Hlen).
      exists keyStates', new. split; [|simpl; lia].
      rewrite andb_false_r. cbn [windowOpen set_windowOpen andb].
      do 2 f_equal. rewrite !set_windowOpen_pushed. by destruct s.
    + cbn [negb andb].
      destruct (bool_decide (sf.type evt = sf.KeyPressed)
                || bool_decide (sf.type evt = sf.KeyReleased)) eqn:Hkey.
      * assert (sf.type evt = sf.KeyPressed ∨ sf.type evt = sf.KeyReleased)
          as Hty.
        { apply orb_true_iff in Hkey as [H|H];
            apply bool_decide_eq_true in H; eauto. }
        destruct (dispatchKeyboardEvent_key InputEvent evt keyStates s Hty)
          as (keyStates1 & new1 & -> & Hlen1).
        cbn [mbind option_bind].
        destruct (IH keyStates1 (pushed new1 s))
          as (keyStates' & new & -> & Hlen).
        exists keyStates', (new1 ++ new). split.
        -- by rewrite windowOpen_pushed, pushed_app.
        -- rewrite length_app. simpl. lia.
      * cbn [mbind option_bind].
        destruct (IH keyStates s) as (keyStates' & new & -> & Hlen).
        exists keyStates', new. split; [done|simpl; lia].
Qed.

(** X15: [processWindowEvents] never fails, whatever is polled: the
    assertion of [dispatchKeyboardEvent] is guarded by the test that
    precedes the call.  It only appends to the receiving queue, at most one
    event per polled event; the registry, the queue index and the other
    queue are as before, and the window is open afterwards exactly when it
    was open and no close request was polled. *)
Theorem processWindowEvents_frame InputEvent polled keyStates s :
  ∃ keyStates' s' new,
    processWindowEvents InputEvent polled (keyStates, s)
    = Some (keyStates', s') ∧
    (length new ≤ length polled)%nat ∧
    queueAt (activeQueue s) s' = queueAt (activeQueue s) s ++ (Some <$> new) ∧
    (∀ i, (activeQueue s = 0 ↔ i ≠ 0) → queueAt i s' = queueAt i s) ∧
    listeners s' = listeners s ∧
    activeQueue s' = activeQueue s ∧
    windowOpen s' = windowOpen s && noneClosed polled.
Proof.
  destruct (processWindowEvents_spec InputEvent polled keyStates s)
    as (keyStates' & new & Hrun & Hlen).
  eexists keyStates', _, new. split; [exact Hrun|].
  rewrite set_windowOpen_pushed. split_and!; [done|..].
  - apply (queueAt_pushed new (set_windowOpen _ s)).
  - intros i Hi. by rewrite queueAt_pushed_other.
  - unfold pushed. by rewrite listeners_setQueueAt.
  - by rewrite activeQueue_pushed.
  - by rewrite windowOpen_pushed.
Qed.

(** X16: after a key transition of a control its held flag is the state of
    the key, and no other flag has changed; at most one event is queued, and
    none when the flag already had that state. *)
Theorem dispatchKeyboardEvent_tracks_key InputEvent ty k slot action
    keyStates s :
  control k = Some (slot, action) →
  ty = sf.KeyPressed ∨ ty = sf.KeyReleased →
  let pressed := bool_decide (ty = sf.KeyPressed) in
  ∃ keyStates' new,
    dispatchKeyboardEvent InputEvent (sf.mkEvent ty k) (keyStates, s)
    = Some (keyStates', pushed new s) ∧
    keyStates' !!! slot = pressed ∧
    (∀ slot', slot' ≠ slot → keyStates' !!! slot' = keyStates !!! slot') ∧
    (length new ≤ 1)%nat ∧
    (keyStates !!! slot = pressed → keyStates' = keyStates ∧ new = []).
Proof.
  intros Hc Hty pressed. do 2 eexists. split.
  { by apply (dispatchKeyboardEvent_control _ _ _ slot action). }
  fold pressed. split_and!.
  - apply vlookup_insert.
  - intros slot' Hne. by apply vlookup_insert_ne.
  - apply length_edgeEvents.
  - intros Hsame. split.
    + rewrite <- Hsame. apply vlookup_insert_self.
    + unfold edgeEvents. rewrite Hsame. by destruct pressed.
Qed.

Lemma dispatchKeyboardEvent_tracks_key_witness :
  control sf.Space = Some (FIRE, Fire) ∧
  (sf.KeyPressed = sf.KeyPressed ∨ sf.KeyPressed = sf.KeyReleased) ∧
  let pressed := bool_decide (sf.KeyPressed = sf.KeyPressed) in
  ∃ keyStates' new,
    dispatchKeyboardEvent sample_InputEvent
      (sf.mkEvent sf.KeyPressed sf.Space)
      (keyStates_init, GameEventSystem_new)
    = Some (keyStates', pushed new GameEventSystem_new) ∧
    keyStates' !!! FIRE = pressed ∧
    (∀ slot', slot' ≠ FIRE → keyStates' !!! slot' = keyStates_init !!! slot') ∧
    (length new ≤ 1)%nat ∧
    (keyStates_init !!! FIRE = pressed →
     keyStates' = keyStates_init ∧ new = []).
Proof.
  split; [reflexivity|]. split; [by left|].
  apply (dispatchKeyboardEvent_tracks_key sample_InputEvent sf.KeyPressed
           sf.Space FIRE Fire keyStates_init GameEventSystem_new);
    [reflexivity | by left].
Defined.

Lemma vinsert_vinsert {A n} (i : fin n) (x y : A) (v : vec A n) :
  vinsert i x (vinsert i y v) = vinsert i x v.
Proof.
  apply vec_eq. intros j. destruct (decide (i = j)) as [->|Hne].
  - by rewrite !vlookup_insert.
  - by rewrite !vlookup_insert_ne.
Qed.

(** X17: pressing and releasing the key of a control that is not held
    brings the held flags back to what they were; the queue has received the
    start event and, for a control that has one, the stop event behind it. *)
Theorem key_press_release_roundtrip InputEvent k slot action keyStates s :
  control k = Some (slot, action) →
  keyStates !!! slot = false →
  dispatchKeyboardEvent InputEvent (sf.mkEvent sf.KeyPressed k) (keyStates, s)
    ≫= dispatchKeyboardEvent InputEvent (sf.mkEvent sf.KeyReleased k)
  = Some (keyStates,
          pushed
            (InputEvent action (if isPulse action then None else Some Start)
               :: (if isPulse action then []
                   else [InputEvent action (Some Stop)])) s).
Proof.
  intros Hc Hfree.
  rewrite (dispatchKeyboardEvent_control _ _ _ slot action) by eauto.
  cbn [mbind option_bind].
  rewrite (dispatchKeyboardEvent_control _ _ _ slot action) by eauto.
  decide_types.
  rewrite vlookup_insert, Hfree, vinsert_vinsert, pushed_app.
  rewrite <- Hfree at 1. rewrite vlookup_insert_self.
  unfold edgeEvents. cbn [Bool.eqb]. by destruct (isPulse action).
Qed.

Lemma key_press_release_roundtrip_witness :
  control sf.Left = Some (LEFT, MoveLeft) ∧
  keyStates_init !!! LEFT = false ∧
  dispatchKeyboardEvent sample_InputEvent (sf.mkEvent sf.KeyPressed sf.Left)
    (keyStates_init, GameEventSystem_new)
    ≫= dispatchKeyboardEvent sample_InputEvent
         (sf.mkEvent sf.KeyReleased sf.Left)
  = Some (keyStates_init,
          pushed
            (sample_InputEvent MoveLeft
               (if isPulse MoveLeft then None else Some Start)
               :: (if isPulse MoveLeft then []
                   else [sample_InputEvent MoveLeft (Some Stop)]))
            GameEventSystem_new).
Proof.
  split; [reflexivity|]. split; [reflexivity|].
  apply (key_press_release_roundtrip sample_InputEvent sf.Left LEFT MoveLeft
           keyStates_init GameEventSystem_new); reflexivity.
Defined.

(** X18: [update] ingests before it flips: with a budget that is not
    exceeded, the events the polled input produces are delivered in the same
    update, after the events that were queued already. *)
Theorem update_delivers_ingested InputEvent maxMs elapsedMilliF polled
    keyStates s (evs : list Event) :
  activeQueue s < 2 →
  queueAt (activeQueue s) s = Some <$> evs →
  (∀ k, (elapsedMilliF k <= maxMs)%Q) →
  ∃ keyStates' s1 new s' trace,
    processWindowEvents InputEvent polled (keyStates, s)
    = Some (keyStates', s1) ∧
    queueAt (activeQueue s) s1 = Some <$> evs ++ new ∧
    update InputEvent maxMs elapsedMilliF polled (keyStates, s)
    = Some (keyStates', s', trace) ∧
    trace.*1 = evs ++ new ∧
    queueAt (activeQueue s) s' = [].
Proof.
  intros Hlt Hq Hample.
  destruct (processWindowEvents_spec InputEvent polled keyStates s)
    as (keyStates' & new & Hrun & _).
  set (s1 := set_windowOpen (windowOpen s && noneClosed polled)
               (pushed new s)) in *.
  assert (activeQueue s1 = activeQueue s) as Hact1
    by (unfold s1; by rewrite set_windowOpen_pushed, activeQueue_pushed).
  assert (queueAt (activeQueue s1) s1 = Some <$> evs ++ new) as Hq1.
  { unfold s1. rewrite set_windowOpen_pushed, activeQueue_pushed.
    rewrite (queueAt_pushed new (set_windowOpen _ s)).
    cbn [activeQueue set_windowOpen]. rewrite fmap_app. f_equal. exact Hq. }
  assert (activeQueue s1 < 2) as Hlt1 by (by rewrite Hact1).
  destruct (processQueue_state maxMs elapsedMilliF s1 _ Hlt1 Hq1)
    as (s' & Hdrain & _ & _ & _ & Hold & _).
  rewrite deliveries_ample, firstn_all in Hdrain by done.
  eexists keyStates', s1, new, s', _. split_and!.
  - exact Hrun.
  - by rewrite <- Hact1.
  - unfold update. rewrite Hrun. cbn [mbind option_bind].
    by rewrite Hdrain.
  - apply trace_events.
  - by rewrite <- Hact1.
Qed.

Lemma update_delivers_ingested_witness :
  activeQueue sample_three_queued < 2 ∧
  queueAt (activeQueue sample_three_queued) sample_three_queued
  = Some <$> [sample_e1; sample_e2; sample_e3] ∧
  (∀ k, (sample_clock k <= 5)%Q) ∧
  ∃ keyStates' s1 new s' trace,
    processWindowEvents sample_InputEvent [sf.mkEvent sf.KeyPressed sf.Space]
      (keyStates_init, sample_three_queued)
    = Some (keyStates', s1) ∧
    queueAt (activeQueue sample_three_queued) s1
    = Some <$> [sample_e1; sample_e2; sample_e3] ++ new ∧
    update sample_InputEvent 5%Q sample_clock
      [sf.mkEvent sf.KeyPressed sf.Space] (keyStates_init, sample_three_queued)
    = Some (keyStates', s', trace) ∧
    trace.*1 = [sample_e1; sample_e2; sample_e3] ++ new ∧
    queueAt (activeQueue sample_three_queued) s' = [].
Proof.
  assert (∀ k, (sample_clock k <= 5)%Q) as Hample by (intros k; done).
  split; [reflexivity|]. split; [reflexivity|]. split; [exact Hample|].
  apply (update_delivers_ingested sample_InputEvent 5%Q sample_clock
           [sf.mkEvent sf.KeyPressed sf.Space] keyStates_init
           sample_three_queued [sample_e1; sample_e2; sample_e3]);
    [reflexivity | reflexivity | exact Hample].
Defined.
